(** * rmm (RimWorld Mod Manager), [src/rmm/core2.py]

    A shallow embedding of the mod records, the mod list container, the
    three mod-list codecs and the load-order sort of [core2.py], with the
    properties of the load-order and persistence core proved against it.

    Conventions.  A Python [str] is a [string]; a Python [int] is a [Z];
    [Optional[T]] is [option T]; a Python list is a [list], in order.  A
    call that can raise returns a [result]; a generator returns the list
    of values it yielded together with the way it ended ([gen]). *)

From Stdlib Require Import ZArith Ascii String DecimalString DecimalPos DecimalZ.
From stdpp Require Import base option list relations strings gmap.

Local Open Scope string_scope.
Local Open Scope list_scope.
Local Open Scope Z_scope.

(** ** Python exceptions and results *)

Inductive exn : Type :=
| IndexError
| ValueError
| TypeError
| KeyError
| AttributeError
| NotImplementedError
| RuntimeError (msg : string)
| NetworkXUnfeasible (msg : string)
| CsvError (msg : string).

Inductive result (A : Type) : Type :=
| Ok (a : A)
| Raise (e : exn).
Arguments Ok {A} a.
Arguments Raise {A} e.

(** The [args] tuple of an exception: what the caller can read out of it. *)
Definition exn_args (e : exn) : list string :=
  match e with
  | RuntimeError msg | NetworkXUnfeasible msg | CsvError msg => [msg]
  | _ => []
  end.

(** Python's index normalisation for [seq[i]] on a sequence of length
    [n]: a negative index counts from the end, anything still outside
    [0, n) is an [IndexError]. *)
Definition norm_index (n : nat) (i : Z) : option nat :=
  let j := if i <? 0 then i + Z.of_nat n else i in
  if (0 <=? j) && (j <? Z.of_nat n) then Some (Z.to_nat j) else None.

(** ** [class Mod] *)

Module Mod.

Record t : Type := Mod {
  packageid : string;
  before : option (list string);
  after : option (list string);
  incompatible : option (list string);
  path : option string;
  author : option string;
  name : option string;
  versions : option (list string);
  steamid : option Z;
  ignored : bool;
  repo_url : option string;
  workshop_managed : option bool
}.

(** [Mod(packageid, steamid=..., repo_url=...)]: every other keyword keeps
    its default. *)
Definition make (pid : string) (sid : option Z) (url : option string) : t :=
  {| packageid := pid; before := None; after := None; incompatible := None;
     path := None; author := None; name := None; versions := None;
     steamid := sid; ignored := false; repo_url := url;
     workshop_managed := None |}.

(** [ModStub.__init__]: [super().__init__] with the empty package id and
    the given [steamid]. *)
Definition ModStub (sid : Z) : t := make EmptyString (Some sid) None.

End Mod.

(** The Python objects a [Mod] is compared with. *)
Inductive pyobj : Type :=
| PMod (m : Mod.t)
| PStr (s : string)
| PInt (z : Z)
| PNone.

(** The value of a rich comparison method. *)
Inductive cmp : Type :=
| CBool (b : bool)
| NotImplemented.

(** [Mod.__eq__] (inherited unchanged by [ModStub]). *)
Definition Mod__eq__ (self : Mod.t) (other : pyobj) : cmp :=
  match other with
  | PMod o => CBool (bool_decide (Mod.packageid self = Mod.packageid o))
  | PStr s => CBool (bool_decide (Mod.packageid self = s))
  | _ => NotImplemented
  end.

(** [__eq__] of the builtin operand types against an arbitrary object. *)
Definition builtin__eq__ (a b : pyobj) : cmp :=
  match a, b with
  | PStr s, PStr t => CBool (bool_decide (s = t))
  | PInt x, PInt y => CBool (bool_decide (x = y))
  | PNone, PNone => CBool true
  | _, _ => NotImplemented
  end.

Definition dunder_eq (a b : pyobj) : cmp :=
  match a with
  | PMod m => Mod__eq__ m b
  | _ => builtin__eq__ a b
  end.

(** The operator [a == b]: [a.__eq__(b)], then the reflected
    [b.__eq__(a)], then identity; two distinct objects that both answer
    [NotImplemented] are unequal. *)
Definition py_eq (a b : pyobj) : bool :=
  match dunder_eq a b with
  | CBool r => r
  | NotImplemented =>
      match dunder_eq b a with
      | CBool r => r
      | NotImplemented => false
      end
  end.

(** [value in seq] for a sequence of mods: [any(v is value or v == value)]. *)
Definition py_in (value : pyobj) (mods : list Mod.t) : bool :=
  existsb (fun v => py_eq (PMod v) value) mods.

(** ** [class ModList(MutableSequence)] *)

Module ModList.

Record t : Type := ModList {
  data : list Mod.t;
  name : option string
}.

Definition __init__ (data : list Mod.t) (name : option string) : t :=
  ModList data name.

Definition __len__ (self : t) : Z := Z.of_nat (length (data self)).

Definition __getitem__ (self : t) (key : Z) : result Mod.t :=
  match norm_index (length (data self)) key with
  | Some j =>
      match data self !! j with
      | Some m => Ok m
      | None => Raise IndexError
      end
  | None => Raise IndexError
  end.

Definition __setitem__ (self : t) (key : Z) (value : Mod.t) : result t :=
  match norm_index (length (data self)) key with
  | Some j => Ok (ModList (<[j := value]> (data self)) (name self))
  | None => Raise IndexError
  end.

Definition __delitem__ (self : t) (key : Z) : result t :=
  match norm_index (length (data self)) key with
  | Some j => Ok (ModList (delete j (data self)) (name self))
  | None => Raise IndexError
  end.

(** [insert]: [self.data[i] = x]. *)
Definition insert (self : t) (i : Z) (x : Mod.t) : result t :=
  match norm_index (length (data self)) i with
  | Some j => Ok (ModList (<[j := x]> (data self)) (name self))
  | None => Raise IndexError
  end.

(** [MutableSequence.append]: [self.insert(len(self), value)]. *)
Definition append (self : t) (value : Mod.t) : result t :=
  insert self (__len__ self) value.

(** [MutableSequence.extend]: [for v in values: self.append(v)]. *)
Fixpoint extend (self : t) (values : list Mod.t) : result t :=
  match values with
  | [] => Ok self
  | v :: vs =>
      match append self v with
      | Ok self' => extend self' vs
      | Raise e => Raise e
      end
  end.

(** [MutableSequence.pop]: [v = self[index]; del self[index]; return v]. *)
Definition pop (self : t) (index : Z) : result (Mod.t * t) :=
  match __getitem__ self index with
  | Ok v =>
      match __delitem__ self index with
      | Ok self' => Ok (v, self')
      | Raise e => Raise e
      end
  | Raise e => Raise e
  end.

End ModList.

(** ** The directed graph of [networkx], as far as [Sort.graph] uses it

    [nx.DiGraph] keeps its nodes and, per node, its successors in
    dictionaries, so both iterate in insertion order and hold no
    duplicates.  [nodes] is the node dictionary's key order; [edges] is
    the order in which distinct edges were first added, so the successors
    of [u] in insertion order are the targets of [u]'s edges in [edges]. *)

Module DiGraph.

Record t : Type := DiGraph {
  nodes : list string;
  edges : list (string * string)
}.

Definition empty : t := DiGraph [] [].

Definition add_node (n : string) (ns : list string) : list string :=
  if decide (n ∈ ns) then ns else ns ++ [n].

(** [DG.add_edge(u, v)]: adds [u], then [v], to the nodes when new, and
    records the edge (adding it again changes nothing). *)
Definition add_edge (G : t) (u v : string) : t :=
  DiGraph (add_node v (add_node u (nodes G)))
          (if decide ((u, v) ∈ edges G) then edges G else edges G ++ [(u, v)]).

(** [G.neighbors(u)]: the successors of [u]. *)
Definition neighbors (G : t) (u : string) : list string :=
  (filter (fun e => e.1 = u) (edges G)).*2.

(** [G.in_degree(v)]: the number of predecessors of [v]. *)
Definition in_degree (G : t) (v : string) : Z :=
  Z.of_nat (length (filter (fun e => e.2 = v) (edges G))).

End DiGraph.

(** A generator run to its end: the values it yielded, in order, and the
    exception that ended it, if one did. *)
Definition gen (A : Type) : Type := (list A * option exn)%type.

(** [list(g)]: the yielded values, unless the generator raised. *)
Definition py_list {A} (g : gen A) : result (list A) :=
  match g with
  | (xs, None) => Ok xs
  | (_, Some e) => Raise e
  end.

(** A [for] loop whose body can raise. *)
Fixpoint for_each {A S} (body : S -> A -> result S) (s : S) (l : list A)
  : result S :=
  match l with
  | [] => Ok s
  | x :: l' =>
      match body s x with
      | Ok s' => for_each body s' l'
      | Raise e => Raise e
      end
  end.

(** ** [nx.topological_sort]

    [Sort.graph] calls the graph library for the order.  The library
    function (networkx 2.6 and later) reads

      def topological_sort(G):
          for generation in nx.topological_generations(G):
              yield from generation

      def topological_generations(G):
          indegree_map = {v: d for v, d in G.in_degree() if d > 0}
          zero_indegree = [v for v, d in G.in_degree() if d == 0]
          while zero_indegree:
              this_generation = zero_indegree
              zero_indegree = []
              for node in this_generation:
                  if node not in G:
                      raise RuntimeError(...)
                  for child in G.neighbors(node):
                      try:
                          indegree_map[child] -= 1
                      except KeyError as err:
                          raise RuntimeError(...) from err
                      if indegree_map[child] == 0:
                          zero_indegree.append(child)
                          del indegree_map[child]
              yield this_generation
          if indegree_map:
              raise nx.NetworkXUnfeasible(...)

    and is embedded below statement by statement: [indegree_map] holds
    the nodes with unresolved predecessors, [zero_indegree] those that
    became free. *)

Module Topo.

Import DiGraph.

Definition graph_changed : exn := RuntimeError "Graph changed during iteration".

Definition unfeasible : exn :=
  NetworkXUnfeasible "Graph contains a cycle or graph changed during iteration".

(** The loop state: [indegree_map] and the [zero_indegree] list being
    filled for the next generation. *)
Definition state : Type := (gmap string Z * list string)%type.

(** Body of [for child in G.neighbors(node)]:
    [indegree_map[child] -= 1] (a [KeyError] is turned into a
    [RuntimeError]); at zero the child is appended to [zero_indegree] and
    deleted from the map. *)
Definition visit_child (st : state) (child : string) : result state :=
  let '(indegree_map, zero_indegree) := st in
  match indegree_map !! child with
  | None => Raise graph_changed
  | Some d =>
      let d' := d - 1 in
      if d' =? 0
      then Ok (delete child indegree_map, zero_indegree ++ [child])
      else Ok (<[child := d']> indegree_map, zero_indegree)
  end.

(** Body of [for node in this_generation]. *)
Definition visit_node (G : t) (st : state) (node : string) : result state :=
  if decide (node ∈ nodes G)
  then for_each visit_child st (neighbors G node)
  else Raise graph_changed.

(** [{v: d for v, d in G.in_degree() if d > 0}]. *)
Definition initial_indegree_map (G : t) : gmap string Z :=
  foldl (fun m v => if 0 <? in_degree G v then <[v := in_degree G v]> m else m)
        ∅ (nodes G).

(** [[v for v, d in G.in_degree() if d == 0]]. *)
Definition initial_zero_indegree (G : t) : list string :=
  filter (fun v => in_degree G v = 0) (nodes G).

(** [while zero_indegree: ...], with the number of iterations bounded by
    [fuel]; [None] when the bound is reached.  After the loop a non-empty
    [indegree_map] raises [NetworkXUnfeasible]. *)
Fixpoint generations_loop (fuel : nat) (G : t) (indegree_map : gmap string Z)
  (zero_indegree : list string) : option (gen (list string)) :=
  match zero_indegree with
  | [] =>
      Some ([], if decide (indegree_map = ∅) then None else Some unfeasible)
  | _ :: _ =>
      match fuel with
      | O => None
      | S fuel' =>
          let this_generation := zero_indegree in
          match for_each (visit_node G) (indegree_map, []) this_generation with
          | Raise e => Some ([], Some e)
          | Ok (indegree_map', zero_indegree') =>
              match generations_loop fuel' G indegree_map' zero_indegree' with
              | None => None
              | Some (gens, e) => Some (this_generation :: gens, e)
              end
          end
      end
  end.

(** [nx.topological_generations(G)].  Every iteration but the last takes
    a node out of [indegree_map], so [2 + len(G)] iterations are enough
    (lemma [topological_generations_total]). *)
Definition topological_generations (G : t) : option (gen (list string)) :=
  generations_loop (2 + length (nodes G)) G
                   (initial_indegree_map G) (initial_zero_indegree G).

(** [nx.topological_sort(G)]:
    [for generation in topological_generations(G): yield from generation]. *)
Definition topological_sort (G : t) : option (gen string) :=
  match topological_generations G with
  | None => None
  | Some (gens, e) => Some (concat gens, e)
  end.

End Topo.

(** ** [class Sort] *)

Module Sort.

Definition ignore : list string := ["brrainz.harmony"; "UnlimitedHugs.HugsLib"].

(** [x in ignore] on a list of strings. *)
Definition in_ignore (x : string) : bool := bool_decide (x ∈ ignore).

(** Body of [for a in m.after]. *)
Definition visit_after (mods : list Mod.t) (m : Mod.t) (DG : DiGraph.t)
  (a : string) : DiGraph.t :=
  if py_in (PStr a) mods then
    if negb (in_ignore a) && negb (in_ignore (Mod.packageid m))
    then DiGraph.add_edge DG a (Mod.packageid m)
    else DG
  else DG.

(** Body of [for b in m.before]. *)
Definition visit_before (mods : list Mod.t) (m : Mod.t) (DG : DiGraph.t)
  (b : string) : DiGraph.t :=
  if py_in (PStr b) mods then
    if negb (in_ignore b) && negb (in_ignore (Mod.packageid m))
    then DiGraph.add_edge DG (Mod.packageid m) b
    else DG
  else DG.

(** [if l: for x in l: ...]: [None] and the empty list are both falsy. *)
Definition if_truthy_for {A S} (body : S -> A -> S) (s : S)
  (l : option (list A)) : S :=
  match l with
  | Some (x :: l') => foldl body s (x :: l')
  | _ => s
  end.

(** Body of [for m in mods]. *)
Definition visit_mod (mods : list Mod.t) (DG : DiGraph.t) (m : Mod.t)
  : DiGraph.t :=
  let DG1 := if_truthy_for (visit_after mods m) DG (Mod.after m) in
  if_truthy_for (visit_before mods m) DG1 (Mod.before m).

(** The graph [DG] that [Sort.graph] builds from [mods]. *)
Definition build (mods : list Mod.t) : DiGraph.t :=
  foldl (visit_mod mods) DiGraph.empty mods.

(** [list(nx.topological_sort(DG))] for that graph. *)
Definition sorted (mods : list Mod.t) : option (result (list string)) :=
  py_list <$> Topo.topological_sort (build mods).

(** [Sort.graph(mods)], seen through what it prints: the heading, then
    the sorted nodes one per line; the exception of the sort ends the
    call after the heading.  The imports and the drawing of the graph
    ([spring_layout], [draw], [show]) read [DG], leave it as it is and
    are not part of the embedding. *)
Definition graph (mods : list Mod.t) : option (gen string) :=
  match sorted mods with
  | None => None
  | Some (Ok nodes) => Some ("topological sort:" :: nodes, None)
  | Some (Raise e) => Some (["topological sort:"], Some e)
  end.

End Sort.

(** ** Python strings

    A character of a [string] stands for one code point below 256. *)

Module Str.

(** [str.isspace] on one character: the white space that [strip]
    removes. *)
Definition is_space (c : ascii) : bool :=
  let n := nat_of_ascii c in
  ((9 <=? n) && (n <=? 13) || (28 <=? n) && (n <=? 32)
   || (n =? 133) || (n =? 160))%nat.

(** The white space that [int] skips around a literal: below 127 the
    six characters of C's [isspace], the four separators 28 to 31 not
    among them; above, the Unicode white space. *)
Definition is_int_space (c : ascii) : bool :=
  let n := nat_of_ascii c in
  ((9 <=? n) && (n <=? 13) || (n =? 32) || (n =? 133) || (n =? 160))%nat.

Definition is_digit (c : ascii) : bool :=
  let n := nat_of_ascii c in ((48 <=? n) && (n <=? 57))%nat.

(** [s] without the characters of the class [sp] at its start, and at
    its end. *)
Fixpoint lstrip_by (sp : ascii -> bool) (s : string) : string :=
  match s with
  | String c s' => if sp c then lstrip_by sp s' else s
  | EmptyString => EmptyString
  end.

Fixpoint rstrip_by (sp : ascii -> bool) (s : string) : string :=
  match s with
  | EmptyString => EmptyString
  | String c s' =>
      match rstrip_by sp s' with
      | EmptyString => if sp c then EmptyString else String c EmptyString
      | r => String c r
      end
  end.

(** [s.lstrip()] and [s.rstrip()]. *)
Abbreviation lstrip := (lstrip_by is_space).
Abbreviation rstrip := (rstrip_by is_space).

Definition newline : string := String "010" EmptyString.

(** Some character of [s] satisfies [p]. *)
Fixpoint any_char (p : ascii -> bool) (s : string) : bool :=
  match s with
  | EmptyString => false
  | String c s' => p c || any_char p s'
  end.

(** [s.strip()]. *)
Definition strip (s : string) : string := rstrip (lstrip s).

(** [s.split(sep, maxsplit)] for a non-empty [sep], scanning from the
    left: [cur] is the field being read, [skip] the characters of a
    separator still to pass over, [maxsplit = None] for no limit. *)
Fixpoint split_from (sep : string) (maxsplit : option nat) (skip : nat)
  (cur : string) (s : string) : list string :=
  match s with
  | EmptyString => [cur]
  | String c s' =>
      match skip with
      | S k => split_from sep maxsplit k cur s'
      | O =>
          if bool_decide (maxsplit <> Some O) && String.prefix sep s
          then cur :: split_from sep (pred <$> maxsplit)
                                 (String.length sep - 1) EmptyString s'
          else split_from sep maxsplit O (cur +:+ String c EmptyString) s'
      end
  end.

Definition split (sep : string) (s : string) : list string :=
  split_from sep None O EmptyString s.

Definition split_max (sep : string) (maxsplit : nat) (s : string)
  : list string :=
  split_from sep (Some maxsplit) O EmptyString s.

(** [sep.join(items)]. *)
Fixpoint join (sep : string) (items : list string) : string :=
  match items with
  | [] => EmptyString
  | [x] => x
  | x :: rest => x +:+ sep +:+ join sep rest
  end.

(** The characters of a string, each as a string of length one: what
    [for x in s] iterates over. *)
Fixpoint chars (s : string) : list string :=
  match s with
  | EmptyString => []
  | String c s' => String c EmptyString :: chars s'
  end.

(** The interpreter's default limit on the number of digits in a
    conversion between [int] and [str] ([sys.int_info.default_max_str_digits]). *)
Definition max_str_digits : Z := 4300.

(** The decimal numeral of an integer, with its sign when negative. *)
Definition decimal (z : Z) : string := NilZero.string_of_int (Z.to_int z).

(** [str(z)] for an integer: a [ValueError] when [z] has more digits
    than the limit. *)
Definition of_int (z : Z) : result string :=
  if Z.of_nat (String.length (decimal (Z.abs z))) <=? max_str_digits
  then Ok (decimal z)
  else Raise ValueError.

(** [str(x)] for an optional value: [None] prints as the word. *)
Definition of_opt_int (z : option Z) : result string :=
  match z with
  | Some z => of_int z
  | None => Ok "None"
  end.

Definition of_opt_str (s : option string) : string :=
  match s with
  | Some s => s
  | None => "None"
  end.

(** The digit part of an integer literal: digits, with single underscores
    allowed between two digits only. *)
Fixpoint digits_ok (prev_digit : bool) (s : string) : bool :=
  match s with
  | EmptyString => prev_digit
  | String c s' =>
      if is_digit c then digits_ok true s'
      else if bool_decide (c = "_"%char) then prev_digit && digits_ok false s'
      else false
  end.

Fixpoint drop_underscores (s : string) : string :=
  match s with
  | EmptyString => EmptyString
  | String c s' =>
      if bool_decide (c = "_"%char) then drop_underscores s'
      else String c (drop_underscores s')
  end.

(** The value of the digit part, refused when it has more digits than
    the limit. *)
Definition unsigned_value (s : string) : option Z :=
  if digits_ok false s
     && (Z.of_nat (String.length (drop_underscores s)) <=? max_str_digits)
  then Z.of_uint <$> NilEmpty.uint_of_string (drop_underscores s)
  else None.

(** [int(s)] in base ten; [None] is a [ValueError].  White space around
    the literal is skipped, one sign may precede the digits. *)
Definition to_int (s : string) : option Z :=
  match rstrip_by is_int_space (lstrip_by is_int_space s) with
  | EmptyString => None
  | String c body =>
      if bool_decide (c = "+"%char) then unsigned_value body
      else if bool_decide (c = "-"%char) then Z.opp <$> unsigned_value body
      else unsigned_value (String c body)
  end.

End Str.

(** ** The [csv] module with its default dialect ([excel])

    Delimiter comma, quote character the double quote (written doubled
    inside a quoted field), no escape character, minimal quoting, line
    terminator CR LF, not strict. *)

Module Csv.

Definition quotechar : ascii := "034"%char.

Definition field_limit : Z := 131072.

Definition needs_quote (c : ascii) : bool :=
  bool_decide (c = ","%char) || bool_decide (c = quotechar)
  || bool_decide (c = "013"%char) || bool_decide (c = "010"%char).

Fixpoint double_quotes (s : string) : string :=
  match s with
  | EmptyString => EmptyString
  | String c s' =>
      if bool_decide (c = quotechar)
      then String c (String c (double_quotes s'))
      else String c (double_quotes s')
  end.

(** One field as [writerow] writes it: [None] as the empty string; quoted
    when it holds a special character, or when it is empty and alone. *)
Definition write_field (alone : bool) (f : option string) : string :=
  let s := default EmptyString f in
  if Str.any_char needs_quote s || (alone && bool_decide (s = EmptyString))
  then String quotechar (double_quotes s +:+ String quotechar EmptyString)
  else s.

(** [writer.writerow(row)]: the string handed to the file's [write]. *)
Definition writerow (row : list (option string)) : string :=
  Str.join "," (write_field (bool_decide (length row = 1%nat)) <$> row)
  +:+ String "013" (String "010" EmptyString).

Inductive parser_state : Type :=
| START_RECORD
| START_FIELD
| IN_FIELD
| IN_QUOTED_FIELD
| QUOTE_IN_QUOTED_FIELD
| EAT_CRNL.

(** The reader: its state, the fields of the record so far, the field
    being read. *)
Record reader : Type := Reader {
  state : parser_state;
  fields : list string;
  field : string
}.

Definition parse_save_field (r : reader) (st : parser_state) : reader :=
  Reader st (fields r ++ [field r]) EmptyString.

Definition parse_add_char (r : reader) (st : parser_state) (c : ascii)
  : result reader :=
  if field_limit <=? Z.of_nat (String.length (field r))
  then Raise (CsvError "field larger than field limit (131072)")
  else Ok (Reader st (fields r) (field r +:+ String c EmptyString)).

Definition is_newline (c : ascii) : bool :=
  bool_decide (c = "010"%char) || bool_decide (c = "013"%char).

(** The error of a line break that reaches the reader inside a line. *)
Definition newline_error : exn :=
  CsvError "new-line character seen in unquoted field - do you need to open the file in universal-newline mode?".

(** [parse_process_char]; [None] is the end-of-line signal that follows
    the last character of every line. *)
Definition parse_process_char (r : reader) (c : option ascii) : result reader :=
  let start_field :=
    match c with
    | None => Ok (parse_save_field r START_RECORD)
    | Some ch =>
        if is_newline ch then Ok (parse_save_field r EAT_CRNL)
        else if bool_decide (ch = quotechar)
        then Ok (Reader IN_QUOTED_FIELD (fields r) (field r))
        else if bool_decide (ch = ","%char)
        then Ok (parse_save_field r START_FIELD)
        else parse_add_char r IN_FIELD ch
    end in
  match state r with
  | START_RECORD =>
      match c with
      | None => Ok r
      | Some ch =>
          if is_newline ch then Ok (Reader EAT_CRNL (fields r) (field r))
          else start_field
      end
  | START_FIELD => start_field
  | IN_FIELD =>
      match c with
      | None => Ok (parse_save_field r START_RECORD)
      | Some ch =>
          if is_newline ch then Ok (parse_save_field r EAT_CRNL)
          else if bool_decide (ch = ","%char)
          then Ok (parse_save_field r START_FIELD)
          else parse_add_char r IN_FIELD ch
      end
  | IN_QUOTED_FIELD =>
      match c with
      | None => Ok r
      | Some ch =>
          if bool_decide (ch = quotechar)
          then Ok (Reader QUOTE_IN_QUOTED_FIELD (fields r) (field r))
          else parse_add_char r IN_QUOTED_FIELD ch
      end
  | QUOTE_IN_QUOTED_FIELD =>
      match c with
      | None => Ok (parse_save_field r START_RECORD)
      | Some ch =>
          if bool_decide (ch = quotechar)
          then parse_add_char r IN_QUOTED_FIELD ch
          else if bool_decide (ch = ","%char)
          then Ok (parse_save_field r START_FIELD)
          else if is_newline ch then Ok (parse_save_field r EAT_CRNL)
          else parse_add_char r IN_FIELD ch
      end
  | EAT_CRNL =>
      match c with
      | None => Ok (Reader START_RECORD (fields r) (field r))
      | Some ch =>
          if is_newline ch then Ok r
          else Raise newline_error
      end
  end.

(** The characters of a line, one after the other. *)
Fixpoint feed_chars (r : reader) (s : string) : result reader :=
  match s with
  | EmptyString => Ok r
  | String c s' =>
      match parse_process_char r (Some c) with
      | Ok r' => feed_chars r' s'
      | Raise e => Raise e
      end
  end.

(** One line: its characters, then the end-of-line signal. *)
Definition feed_line (r : reader) (line : string) : result reader :=
  match feed_chars r line with
  | Ok r' => parse_process_char r' None
  | Raise e => Raise e
  end.

(** [for row in csv.reader(lines)]: a record is complete when the reader
    is back in [START_RECORD] at the end of a line; at the end of the
    input a pending field still makes a last record. *)
Fixpoint read_rows (r : reader) (lines : list string) : gen (list string) :=
  match lines with
  | [] =>
      if negb (bool_decide (field r = EmptyString))
         || match state r with IN_QUOTED_FIELD => true | _ => false end
      then ([fields (parse_save_field r START_RECORD)], None)
      else ([], None)
  | line :: lines' =>
      match feed_line r line with
      | Raise e => ([], Some e)
      | Ok r' =>
          match state r' with
          | START_RECORD =>
              let '(rows, e) :=
                read_rows (Reader START_RECORD [] EmptyString) lines' in
              (fields r' :: rows, e)
          | _ => read_rows r' lines'
          end
      end
  end.

Definition reader_rows (lines : list string) : gen (list string) :=
  read_rows (Reader START_RECORD [] EmptyString) lines.

End Csv.

(** ** Generators that parse

    What a [print("Unable to import: ", x)] names: a raw line, or a row
    already split into fields. *)

Inductive diag : Type :=
| DiagLine (line : string)
| DiagRow (row : list string).

(** A parse generator run to its end: the records yielded, the
    diagnostics printed, the exception that ended it (if any). *)
Record run (A : Type) : Type := Run {
  yielded : list A;
  printed : list diag;
  raised : option exn
}.
Arguments Run {A} _ _ _.
Arguments yielded {A} _.
Arguments printed {A} _.
Arguments raised {A} _.

(** One turn of a parse loop: yield a record, go on to the next entry
    (after an optional diagnostic), or let an exception escape. *)
Inductive step (A : Type) : Type :=
| Yield (a : A)
| Skip (d : option diag)
| Abort (e : exn).
Arguments Yield {A} a.
Arguments Skip {A} d.
Arguments Abort {A} e.

(** [for x in items: body]; the generator ends with [ending] when the
    items run out. *)
Fixpoint for_yield {L A} (body : L -> step A) (ending : option exn)
  (items : list L) : run A :=
  match items with
  | [] => Run [] [] ending
  | x :: rest =>
      match body x with
      | Yield a =>
          let r := for_yield body ending rest in
          Run (a :: yielded r) (printed r) (raised r)
      | Skip d =>
          let r := for_yield body ending rest in
          Run (yielded r) (option_list d ++ printed r) (raised r)
      | Abort e => Run [] [] (Some e)
      end
  end.

(** Truthiness of the constants the codecs test. *)
Definition truthy (o : pyobj) : bool :=
  match o with
  | PNone => false
  | PStr s => negb (bool_decide (s = EmptyString))
  | PInt z => negb (bool_decide (z = 0))
  | PMod _ => true
  end.

(** What the [text] argument of a [parse] can be: a string, or an
    iterable of strings such as the generator a [serialize] returns. *)
Inductive pytext : Type :=
| Text (s : string)
| Lines (l : list string).

(** [class ModListSerializer(ABC)]: the interface of the three codecs. *)
Record ModListSerializer : Type := Serializer {
  parse : pytext -> run Mod.t;
  serialize : list Mod.t -> gen string
}.

(** [for m in mods: yield format(m)] with a [format] that can raise. *)
Fixpoint yield_each {A B} (f : A -> result B) (l : list A) : gen B :=
  match l with
  | [] => ([], None)
  | x :: l' =>
      match f x with
      | Ok y => let '(ys, e) := yield_each f l' in (y :: ys, e)
      | Raise e => ([], Some e)
      end
  end.

(** ** [class CsvStringBuilder] *)

Module CsvStringBuilder.

Definition t : Type := list string.

Definition __init__ : t := [].

Definition write (self : t) (row : string) : t := self ++ [row].

(** [self.value.pop()]: the last row, taken off the list. *)
Definition pop (self : t) : result (string * t) :=
  match last self with
  | Some row => Ok (row, removelast self)
  | None => Raise IndexError
  end.

End CsvStringBuilder.

(** ** [class ModListV3Format] *)

Module ModListV3Format.

Definition PACKAGE_ID : nat := 0.
Definition STEAM_ID : nat := 1.
Definition REPO_URL : nat := 2.
Definition MAGIC_FLAG : string := "RMM_V2_MODLIST".

(** Body of [for parsed in reader]: the three subscripts and [int] are
    evaluated in order; [ValueError] and [IndexError] are caught. *)
Definition parse_row (parsed : list string) : step Mod.t :=
  match parsed !! PACKAGE_ID with
  | None => Skip (Some (DiagRow parsed))
  | Some pid =>
      match parsed !! STEAM_ID with
      | None => Skip (Some (DiagRow parsed))
      | Some sid =>
          match Str.to_int sid with
          | None => Skip (Some (DiagRow parsed))
          | Some z =>
              match parsed !! REPO_URL with
              | None => Skip (Some (DiagRow parsed))
              | Some url =>
                  Yield (Mod.make pid (Some z)
                           (if negb (truthy (PStr EmptyString))
                            then Some url else None))
              end
          end
      end
  end.

Definition parse (text : pytext) : run Mod.t :=
  match text with
  | Lines _ => Run [] [] (Some AttributeError)
  | Text s =>
      let '(rows, e) := Csv.reader_rows (Str.split Str.newline s) in
      for_yield parse_row e rows
  end.

(** The list display: its items are evaluated in order, and [str] can
    raise. *)
Definition format (m : Mod.t) : result (list (option string)) :=
  match (if negb (truthy PNone) then Str.of_opt_int (Mod.steamid m)
         else Ok EmptyString) with
  | Raise e => Raise e
  | Ok steamid =>
      Ok [ Some (Mod.packageid m);
           Some steamid;
           (if negb (truthy PNone) then Mod.repo_url m else Some EmptyString) ]
  end.

(** Body of [for m in mods]: the row is written to the buffer, popped
    and stripped. *)
Definition serialize_one (buffer : CsvStringBuilder.t) (m : Mod.t)
  : result (string * CsvStringBuilder.t) :=
  match format m with
  | Raise e => Raise e
  | Ok row =>
      match CsvStringBuilder.pop
              (CsvStringBuilder.write buffer (Csv.writerow row)) with
      | Ok (row, buffer') => Ok (Str.strip row, buffer')
      | Raise e => Raise e
      end
  end.

Fixpoint serialize_from (buffer : CsvStringBuilder.t) (mods : list Mod.t)
  : gen string :=
  match mods with
  | [] => ([], None)
  | m :: mods' =>
      match serialize_one buffer m with
      | Ok (line, buffer') =>
          let '(ls, e) := serialize_from buffer' mods' in (line :: ls, e)
      | Raise e => ([], Some e)
      end
  end.

Definition serialize (mods : list Mod.t) : gen string :=
  serialize_from CsvStringBuilder.__init__ mods.

Definition codec : ModListSerializer := Serializer parse serialize.

End ModListV3Format.

(** ** [class ModListV2Format] *)

Module ModListV2Format.

Definition MAGIC_ID : string := "rmm_modlist_v2".
Definition SEPERATOR : string := "::".
Definition PACKAGE_ID : nat := 0.
Definition STEAM_ID : nat := 1.
Definition REPO_URL : nat := 2.

(** Body of [for line in text]: only [ValueError] is caught, so a missing
    field escapes as [IndexError]. *)
Definition parse_line (line : string) : step Mod.t :=
  let parsed := Str.split SEPERATOR line in
  match parsed !! PACKAGE_ID with
  | None => Abort IndexError
  | Some pid =>
      if negb (truthy (PStr pid)) then Skip None
      else
        match parsed !! STEAM_ID with
        | None => Abort IndexError
        | Some sid =>
            match Str.to_int sid with
            | None => Skip None
            | Some z =>
                match parsed !! REPO_URL with
                | None => Abort IndexError
                | Some url =>
                    Yield (Mod.make pid (Some z)
                             (if negb (truthy (PStr EmptyString))
                              then Some url else None))
                end
            end
        end
  end.

(** [for line in text]: a string is iterated character by character, any
    other iterable item by item. *)
Definition parse (text : pytext) : run Mod.t :=
  match text with
  | Text s => for_yield parse_line None (Str.chars s)
  | Lines l => for_yield parse_line None l
  end.

(** [SEPERATOR.join([...])]: the items of the list are evaluated first,
    and [str] can raise; joining a [None] item is a [TypeError]. *)
Definition format (m : Mod.t) : result string :=
  match (if negb (truthy PNone) then Str.of_opt_int (Mod.steamid m)
         else Ok EmptyString) with
  | Raise e => Raise e
  | Ok steamid =>
      let items : list (option string) :=
        [ Some (Mod.packageid m);
          Some steamid;
          (if negb (truthy PNone) then Mod.repo_url m else Some EmptyString) ] in
      match mapM id items with
      | Some strs => Ok (Str.join SEPERATOR strs)
      | None => Raise TypeError
      end
  end.

Definition serialize (mods : list Mod.t) : gen string :=
  yield_each format mods.

Definition codec : ModListSerializer := Serializer parse serialize.

End ModListV2Format.

(** ** [class ModListV1Format] *)

Module ModListV1Format.

Definition STEAM_ID : nat := 0.

(** Body of [for line in text.split(newline)]. *)
Definition parse_line (line : string) : step Mod.t :=
  let parsed := Str.split_max "#" 1 line in
  match parsed !! STEAM_ID with
  | None => Abort IndexError
  | Some sid =>
      match Str.to_int sid with
      | Some z => Yield (Mod.ModStub z)
      | None =>
          Skip (if truthy (PStr line) then Some (DiagLine line) else None)
      end
  end.

Definition parse (text : pytext) : run Mod.t :=
  match text with
  | Lines _ => Run [] [] (Some AttributeError)
  | Text s => for_yield parse_line None (Str.split Str.newline s)
  end.

(** The format string with its three fields filled in; [str] is
    evaluated first and can raise. *)
Definition format (m : Mod.t) : result string :=
  match Str.of_opt_int (Mod.steamid m) with
  | Raise e => Raise e
  | Ok steamid =>
      Ok (steamid +:+ "# " +:+ Str.of_opt_str (Mod.name m)
          +:+ " by " +:+ Str.of_opt_str (Mod.author m) +:+ " ")
  end.

Definition serialize (mods : list Mod.t) : gen string :=
  yield_each format mods.

Definition codec : ModListSerializer := Serializer parse serialize.

End ModListV1Format.

(** ** [class ModListStreamer]

    The file is its content, on a platform whose line separator is the
    line feed and in an encoding that holds every character written
    (UTF-8); [None] stands for a path that cannot be opened
    ([OSError]). *)

Module ModListStreamer.

(** What [f.read()] returns for a file opened with [open("r")]: the
    content with every carriage return, and every carriage return
    followed by a line feed, turned into one line feed. *)
Fixpoint read_text (content : string) : string :=
  match content with
  | EmptyString => EmptyString
  | String c rest =>
      if bool_decide (c = "013"%char)
      then String "010"
             match rest with
             | String c' rest' =>
                 if bool_decide (c' = "010"%char)
                 then read_text rest' else read_text rest
             | EmptyString => EmptyString
             end
      else String c (read_text rest)
  end.

(** [read]: [None] when the file cannot be read, else the list of the
    records the serializer parses from its text; an exception of the
    parser escapes. *)
Definition read (file : option string) (serializer : ModListSerializer)
  : result (option (list Mod.t)) :=
  match file with
  | None => Ok None
  | Some content =>
      let text := read_text content in
      let r := parse serializer (Text text) in
      match raised r with
      | None => Ok (Some (yielded r))
      | Some e => Raise e
      end
  end.

(** The text [write] puts in the file: every line followed by a newline. *)
Definition file_text (lines : list string) : string :=
  foldr (fun line rest => line +:+ String "010" rest) EmptyString lines.

(** [write] on a path that can be opened: the text left in the file, and
    [True], or the exception of the serializer. *)
Definition write (mods : list Mod.t) (serializer : ModListSerializer)
  : string * result bool :=
  let '(lines, e) := serialize serializer mods in
  (file_text lines, match e with None => Ok true | Some e => Raise e end).

End ModListStreamer.

(** ** [class SteamDownloader] *)

Module SteamDownloader.

(** [s.join(items)] on arbitrary objects: every item must be a string. *)
Definition join_objects (sep : string) (items : list pyobj) : result string :=
  match mapM (fun o => match o with PStr x => Some x | _ => None end) items with
  | Some strs => Ok (Str.join sep strs)
  | None => Raise TypeError
  end.

(** The attribute [m.steamid] as an object. *)
Definition steamid_object (m : Mod.t) : pyobj :=
  match Mod.steamid m with
  | Some z => PInt z
  | None => PNone
  end.

(** [workshop_format], the helper of [_get]: the prefix, then the steam
    ids joined by it; the generator's filter [if not None] keeps every
    mod. *)
Definition workshop_format (mods : list Mod.t) : result string :=
  let s := " +workshop_download_item 294100 " in
  match join_objects s
          (steamid_object <$> filter (fun _ => negb (truthy PNone) = true) mods)
  with
  | Ok joined => Ok (s +:+ joined)
  | Raise e => Raise e
  end.

End SteamDownloader.

(** ** [class WorkshopResult] *)

Module WorkshopResult.

(** The attributes, in the order in which [__init__] sets them. *)
Record t : Type := WorkshopResult {
  steamid : Z;
  name : option string;
  author : option string;
  description : option string;
  update_time : option string;
  size : option string;
  create_time : option string;
  num_ratings : option string;
  rating : option string
}.

(** [__init__]: the keyword [num_rating] is accepted and not stored. *)
Definition __init__ (steamid : Z)
  (name author description update_time size num_rating rating create_time
     num_ratings : option string) : t :=
  {| steamid := steamid; name := name; author := author;
     description := description; update_time := update_time; size := size;
     create_time := create_time; num_ratings := num_ratings;
     rating := rating |}.

(** What a comparison's other operand can be. *)
Inductive operand : Type :=
| Result (w : t)
| Other (o : pyobj).

Definition __eq__ (self : t) (other : operand) : result bool :=
  match other with
  | Result w => Ok (bool_decide (steamid self = steamid w))
  | Other _ => Raise NotImplementedError
  end.

(** Truthiness of an attribute value. *)
Definition truthy_str (v : option string) : bool :=
  match v with
  | Some s => negb (bool_decide (s = EmptyString))
  | None => false
  end.

(** [_merge]: every attribute of [other] that is truthy replaces the
    attribute of [self]. *)
Definition _merge (self other : t) : t :=
  {| steamid := if negb (bool_decide (steamid other = 0))
                then steamid other else steamid self;
     name := if truthy_str (name other) then name other else name self;
     author := if truthy_str (author other) then author other else author self;
     description := if truthy_str (description other)
                    then description other else description self;
     update_time := if truthy_str (update_time other)
                    then update_time other else update_time self;
     size := if truthy_str (size other) then size other else size self;
     create_time := if truthy_str (create_time other)
                    then create_time other else create_time self;
     num_ratings := if truthy_str (num_ratings other)
                    then num_ratings other else num_ratings self;
     rating := if truthy_str (rating other) then rating other else rating self |}.

End WorkshopResult.

(** ** [class WorkshopWebScraper]

    What [detail] reads off the page of a workshop item: each text may
    be missing. *)

Module WorkshopWebScraper.

Record page : Type := Page {
  page_size : option string;
  page_created : option string;
  page_updated : option string;
  page_description : option string;
  page_num_ratings : option string;
  page_rating : option string
}.

(** The value [detail] returns for a page; the number of ratings is
    passed under the keyword [num_rating]. *)
Definition detail (steamid : Z) (p : page) : WorkshopResult.t :=
  WorkshopResult.__init__ steamid None None (page_description p)
    (page_updated p) (page_size p) (page_num_ratings p) (page_rating p)
    (page_created p) None.

(** [WorkshopResult.get_details] for a page. *)
Definition get_details (self : WorkshopResult.t) (p : page) : WorkshopResult.t :=
  WorkshopResult._merge self (detail (WorkshopResult.steamid self) p).

End WorkshopWebScraper.

(** ** Vocabulary of the statements *)

(** The edge relation of a graph, and what it means to have no cycle. *)
Definition edge (G : DiGraph.t) : relation string :=
  fun u v => (u, v) ∈ DiGraph.edges G.

Definition acyclic (G : DiGraph.t) : Prop := forall v, ~ tc (edge G) v v.

(** [u] stands before [v] in the sequence [l]. *)
Definition precedes {A} (l : list A) (u v : A) : Prop :=
  exists i j, l !! i = Some u /\ l !! j = Some v /\ (i < j)%nat.

(** A graph as [add_edge] builds them: no node and no edge twice, every
    end of an edge among the nodes. *)
Definition well_formed (G : DiGraph.t) : Prop :=
  NoDup (DiGraph.nodes G) /\ NoDup (DiGraph.edges G)
  /\ forall u v, edge G u v -> u ∈ DiGraph.nodes G /\ v ∈ DiGraph.nodes G.

(** A record of the collection has package id [x]. *)
Definition in_collection (mods : list Mod.t) (x : string) : Prop :=
  exists m, m ∈ mods /\ Mod.packageid m = x.

(** The index of the first record of the collection with package id [x]. *)
Definition position (mods : list Mod.t) (x : string) : option nat :=
  fst <$> list_find (fun m => Mod.packageid m = x) mods.

(** [y] is a node not yet in [pre] whose predecessors all are. *)
Definition available (G : DiGraph.t) (pre : list string) (y : string) : Prop :=
  y ∈ DiGraph.nodes G /\ (y ∉ pre) /\ forall u, edge G u y -> u ∈ pre.

(** The record [m] with its [ignored] flag set to [b]. *)
Definition set_ignored (b : bool) (m : Mod.t) : Mod.t :=
  {| Mod.packageid := Mod.packageid m; Mod.before := Mod.before m;
     Mod.after := Mod.after m; Mod.incompatible := Mod.incompatible m;
     Mod.path := Mod.path m; Mod.author := Mod.author m;
     Mod.name := Mod.name m; Mod.versions := Mod.versions m;
     Mod.steamid := Mod.steamid m; Mod.ignored := b;
     Mod.repo_url := Mod.repo_url m;
     Mod.workshop_managed := Mod.workshop_managed m |}.

(** A record with a package id and ordering relations only. *)
Definition ordering_mod (pid : string) (before after : list string) : Mod.t :=
  {| Mod.packageid := pid; Mod.before := Some before; Mod.after := Some after;
     Mod.incompatible := None; Mod.path := None; Mod.author := None;
     Mod.name := None; Mod.versions := None; Mod.steamid := None;
     Mod.ignored := false; Mod.repo_url := None;
     Mod.workshop_managed := None |}.

(** Counting edges into [v]: those whose source is not in [done], those
    whose source is in [srcs]; and the occurrences of [v] in a list. *)
Definition pending (G : DiGraph.t) (done : list string) (v : string) : nat :=
  length (filter (fun e => e.2 = v /\ e.1 ∉ done) (DiGraph.edges G)).

Definition into_from (G : DiGraph.t) (srcs : list string) (v : string) : nat :=
  length (filter (fun e => e.2 = v /\ e.1 ∈ srcs) (DiGraph.edges G)).

Definition occurrences (v : string) (l : list string) : nat :=
  length (filter (fun c => c = v) l).

(** The state of the generation loop at the head of an iteration, with
    [done] the nodes of the generations already yielded and [zero] the
    generation about to be processed. *)
Record loop_invariant (G : DiGraph.t) (done zero : list string)
  (indeg : gmap string Z) : Prop := LoopInvariant {
  inv_nodup : NoDup (done ++ zero);
  inv_nodes : forall v, v ∈ done ++ zero -> v ∈ DiGraph.nodes G;
  inv_none : forall v, v ∈ DiGraph.nodes G -> indeg !! v = None ->
                       v ∈ done ++ zero;
  inv_some : forall v d, indeg !! v = Some d ->
                         v ∈ DiGraph.nodes G /\ (v ∉ done ++ zero)
                         /\ 0 < d /\ d = Z.of_nat (pending G done v);
  inv_zero : forall u v, edge G u v -> v ∈ zero -> u ∈ done;
  inv_order : forall u v, edge G u v -> v ∈ done -> precedes done u v
}.

(** The list [l] with every element kept at its last mention only. *)
Fixpoint last_mentions (l : list string) : list string :=
  match l with
  | [] => []
  | x :: l' =>
      if decide (x ∈ l') then last_mentions l' else x :: last_mentions l'
  end.

(** The nodes without predecessors, in the order in which the nodes
    entered the graph. *)
Definition first_generation (G : DiGraph.t) : list string :=
  filter (fun v => DiGraph.in_degree G v = 0) (DiGraph.nodes G).

(** The nodes that the generation [gen] sets free, [done] being the
    nodes of the generations before it: the successors of the nodes of
    [gen], taken node by node in the order of [gen] and for each node in
    the order of its edges, each successor at the place of its last
    mention, that have no predecessor left outside [done] and [gen]. *)
Definition freed_by (G : DiGraph.t) (done gen : list string) : list string :=
  filter (fun v => pending G (done ++ gen) v = 0%nat)
         (last_mentions (gen ≫= DiGraph.neighbors G)).

(** The generations that follow one another from [gen] on, down to the
    first empty one. *)
Inductive generations_from (G : DiGraph.t)
  : list string -> list string -> list (list string) -> Prop :=
| generations_end done : generations_from G done [] []
| generations_next done gen gens :
    gen <> [] ->
    generations_from G (done ++ gen) (freed_by G done gen) gens ->
    generations_from G done gen (gen :: gens).

(** A check that every edge of [es] runs forward in the sequence [l]. *)
Definition runs_forward (l : list string) (es : list (string * string)) : bool :=
  forallb (fun e =>
             match list_find (fun x => x = e.1) l, list_find (fun x => x = e.2) l with
             | Some (i, _), Some (j, _) => (i <? j)%nat
             | _, _ => false
             end) es.

(** Every node is an end of an edge: [add_edge] is the only way in. *)
Definition nodes_are_ends (G : DiGraph.t) : Prop :=
  forall x, x ∈ DiGraph.nodes G -> exists u v, edge G u v /\ (x = u \/ x = v).

(** The condition under which a reference [x] of the record [m] becomes
    an edge. *)
Definition admitted (mods : list Mod.t) (m : Mod.t) (x : string) : Prop :=
  in_collection mods x /\ (x ∉ Sort.ignore) /\ (Mod.packageid m ∉ Sort.ignore).

(** The edges that the record [m] declares in the collection [mods]. *)
Definition declares (mods : list Mod.t) (m : Mod.t) (e : string * string) : Prop :=
  (exists a, a ∈ default [] (Mod.after m)
             /\ admitted mods m a /\ e = (a, Mod.packageid m))
  \/ (exists b, b ∈ default [] (Mod.before m)
                /\ admitted mods m b /\ e = (Mod.packageid m, b)).

(** What the graph construction reads of a record. *)
Definition ordering_view (m : Mod.t)
  : string * option (list string) * option (list string) :=
  (Mod.packageid m, Mod.before m, Mod.after m).

(** No character of [s] satisfies [bad]. *)
Definition free_of (bad : ascii -> bool) (s : string) : Prop :=
  Str.any_char bad s = false.

Definition is_char (c0 : ascii) (c : ascii) : bool := bool_decide (c = c0).

(** The record that a V2 or V3 [parse] makes of the three fields of [m]. *)
Definition triple (m : Mod.t) : Mod.t :=
  Mod.make (Mod.packageid m) (Mod.steamid m) (Mod.repo_url m).

(** A steam id that [str] prints: not more digits than the limit. *)
Definition printable (z : Z) : Prop :=
  Z.of_nat (String.length (Str.decimal (Z.abs z))) <= Str.max_str_digits.

(** The steam id of [m], if there is one, is printable. *)
Definition steamid_printable (m : Mod.t) : Prop :=
  forall z, Mod.steamid m = Some z -> printable z.

(** A line feed or a carriage return. *)
Definition line_break (c : ascii) : bool := is_char "010" c || is_char "013" c.

(** A record that [ModListV1Format] writes on one line: a printable
    steam id, and no line break in the name or the author. *)
Definition v1_writable (m : Mod.t) : Prop :=
  (exists z, Mod.steamid m = Some z /\ printable z)
  /\ free_of line_break (Str.of_opt_str (Mod.name m))
  /\ free_of line_break (Str.of_opt_str (Mod.author m)).

(** A record with its three fields present, a non-empty package id, a
    printable steam id, and no colon in the package id or the repo url. *)
Definition v2_writable (m : Mod.t) : Prop :=
  Mod.packageid m <> EmptyString
  /\ free_of (is_char ":") (Mod.packageid m)
  /\ (exists z, Mod.steamid m = Some z /\ printable z)
  /\ exists url, Mod.repo_url m = Some url /\ free_of (is_char ":") url.

(** The delimiters of a csv file: the comma between the fields, the
    line breaks between the rows. *)
Definition csv_delimiter (c : ascii) : bool := is_char "," c || line_break c.

(** A field without a delimiter and not longer than the csv reader's
    field limit. *)
Definition csv_field (f : string) : Prop :=
  free_of csv_delimiter f
  /\ Z.of_nat (String.length f) <= Csv.field_limit.

(** A field as the csv writer writes it in a row of several fields. *)
Definition written (f : string) : string := Csv.write_field false (Some f).

(** A record with its three fields present, the package id and the
    repo url without delimiter and within the field limit, a printable
    steam id, and a row that, as written, neither starts nor ends with
    white space. *)
Definition v3_writable (m : Mod.t) : Prop :=
  csv_field (Mod.packageid m)
  /\ Str.lstrip (written (Mod.packageid m)) = written (Mod.packageid m)
  /\ (exists z, Mod.steamid m = Some z /\ printable z)
  /\ exists url, Mod.repo_url m = Some url /\ csv_field url
                 /\ Str.rstrip (written url) = written url.

(** The reader states in which an unquoted field can start or go on. *)
Definition accepting (st : Csv.parser_state) : bool :=
  match st with
  | Csv.START_RECORD | Csv.START_FIELD | Csv.IN_FIELD => true
  | _ => false
  end.

(** The line that [ModListV1Format] writes for a record with a steam
    id. *)
Definition v1_line (m : Mod.t) : string :=
  Str.decimal (default 0 (Mod.steamid m)) +:+ "# "
  +:+ Str.of_opt_str (Mod.name m) +:+ " by "
  +:+ Str.of_opt_str (Mod.author m) +:+ " ".

(** The line that [ModListV2Format] writes for a record with its three
    fields. *)
Definition v2_line (m : Mod.t) : string :=
  Mod.packageid m +:+ "::" +:+ Str.decimal (default 0 (Mod.steamid m))
  +:+ "::" +:+ default EmptyString (Mod.repo_url m).

(** The reader states at the end of a field that has been read. *)
Definition field_read (st : Csv.parser_state) : bool :=
  match st with
  | Csv.START_RECORD | Csv.START_FIELD | Csv.IN_FIELD
  | Csv.QUOTE_IN_QUOTED_FIELD => true
  | _ => false
  end.

(** The fields of the row that [ModListV3Format] writes for a record
    with its three fields present. *)
Definition v3_fields (m : Mod.t) : list string :=
  [ Mod.packageid m; Str.decimal (default 0 (Mod.steamid m));
    default EmptyString (Mod.repo_url m) ].

(** The line that [ModListV3Format] yields for such a record. *)
Definition v3_line (m : Mod.t) : string :=
  Str.join "," (written <$> v3_fields m).

(** The number of characters of a list of lines. *)
Definition budget (lines : list string) : nat :=
  foldr (fun line n => (String.length line + n)%nat) O lines.

(** The string attributes of a workshop result. *)
Definition string_attributes : list (WorkshopResult.t -> option string) :=
  [WorkshopResult.name; WorkshopResult.author; WorkshopResult.description;
   WorkshopResult.update_time; WorkshopResult.size;
   WorkshopResult.create_time; WorkshopResult.num_ratings;
   WorkshopResult.rating].

(** * Properties *)

(** ** Records and their equality *)

Section Equality.

Implicit Types (m : Mod.t) (s : string) (z : Z).

Lemma py_eq_mod_mod m1 m2 :
  py_eq (PMod m1) (PMod m2) = true <-> Mod.packageid m1 = Mod.packageid m2.
Proof. unfold py_eq; simpl. apply bool_decide_eq_true. Qed.

Lemma py_eq_mod_str m s :
  py_eq (PMod m) (PStr s) = true <-> Mod.packageid m = s.
Proof. unfold py_eq; simpl. apply bool_decide_eq_true. Qed.

Lemma py_eq_str_mod m s :
  py_eq (PStr s) (PMod m) = true <-> Mod.packageid m = s.
Proof. unfold py_eq; simpl. apply bool_decide_eq_true. Qed.

Lemma py_in_str s (mods : list Mod.t) :
  py_in (PStr s) mods = true <-> exists m, m ∈ mods /\ Mod.packageid m = s.
Proof.
  unfold py_in. rewrite existsb_exists. split.
  - intros (m & Hin & Heq). exists m. split; [by apply list_elem_of_In|].
    by apply py_eq_mod_str.
  - intros (m & Hin & Heq). exists m. split; [by apply list_elem_of_In|].
    by apply py_eq_mod_str.
Qed.

End Equality.

(** C9, as the code has it.  Two records are equal exactly when their
    package ids are the same string, and a record equals a plain string
    (on either side of [==]) exactly when the string is its package id.
    A stub has the empty package id and [ModStub] inherits [__eq__]
    unchanged, so every two stubs are equal whatever their steam ids, and
    a stub is never equal to an integer: equality does not look at
    [steamid]. *)
Theorem C9_equality_by_packageid :
  (forall m1 m2, py_eq (PMod m1) (PMod m2) = true
                 <-> Mod.packageid m1 = Mod.packageid m2)
  /\ (forall m s, (py_eq (PMod m) (PStr s) = true <-> Mod.packageid m = s)
                  /\ (py_eq (PStr s) (PMod m) = true <-> Mod.packageid m = s))
  /\ (forall z1 z2, py_eq (PMod (Mod.ModStub z1)) (PMod (Mod.ModStub z2)) = true)
  /\ (forall z1 z2, py_eq (PMod (Mod.ModStub z1)) (PInt z2) = false
                    /\ py_eq (PInt z2) (PMod (Mod.ModStub z1)) = false).
Proof.
  split; [exact py_eq_mod_mod|]. split.
  { intros m s. split; [apply py_eq_mod_str | apply py_eq_str_mod]. }
  split; [reflexivity|]. intros z1 z2. split; reflexivity.
Qed.

(** C9 as stated fails on its last part: the stubs of steam ids 1 and 2
    are different mods, yet they compare equal, and the stub of steam id
    1 is not found by comparing with 1. *)
Lemma C9_stubs_not_told_apart :
  Mod.steamid (Mod.ModStub 1) <> Mod.steamid (Mod.ModStub 2)
  /\ py_eq (PMod (Mod.ModStub 1)) (PMod (Mod.ModStub 2)) = true
  /\ py_eq (PMod (Mod.ModStub 1)) (PInt 1) = false.
Proof. split; [discriminate|]. split; reflexivity. Qed.

(** ** The mod list *)

Section ModListFacts.

Implicit Types (xs : ModList.t) (x : Mod.t) (i j : Z).

Lemma norm_index_in_range (n : nat) i :
  0 <= i < Z.of_nat n -> norm_index n i = Some (Z.to_nat i).
Proof.
  intros [H0 Hn]. unfold norm_index.
  destruct (Z.ltb_spec i 0) as [?|_]; [lia|].
  destruct (Z.leb_spec 0 i); [|lia].
  destruct (Z.ltb_spec i (Z.of_nat n)); [done|lia].
Qed.

Lemma norm_index_negative (n : nat) i :
  - Z.of_nat n <= i < 0 -> norm_index n i = Some (Z.to_nat (i + Z.of_nat n)).
Proof.
  intros [H0 Hn]. unfold norm_index.
  destruct (Z.ltb_spec i 0) as [_|?]; [|lia].
  destruct (Z.leb_spec 0 (i + Z.of_nat n)); [|lia].
  destruct (Z.ltb_spec (i + Z.of_nat n) (Z.of_nat n)); [done|lia].
Qed.

Lemma norm_index_out_of_range (n : nat) i :
  i < - Z.of_nat n \/ Z.of_nat n <= i -> norm_index n i = None.
Proof.
  intros H. unfold norm_index.
  destruct (Z.ltb_spec i 0).
  - destruct (Z.leb_spec 0 (i + Z.of_nat n)); [|done].
    destruct (Z.ltb_spec (i + Z.of_nat n) (Z.of_nat n)); [lia|done].
  - destruct (Z.leb_spec 0 i); [|done].
    destruct (Z.ltb_spec i (Z.of_nat n)); [lia|done].
Qed.

Lemma norm_index_bound (n : nat) i (k : nat) :
  norm_index n i = Some k -> (k < n)%nat.
Proof.
  unfold norm_index.
  destruct (Z.ltb_spec i 0);
    repeat match goal with
           | |- context [Z.leb ?a ?b] => destruct (Z.leb_spec a b)
           | |- context [Z.ltb ?a ?b] => destruct (Z.ltb_spec a b)
           end; simpl; intros ?; simplify_eq; lia.
Qed.

Lemma insert_in_range xs i x :
  0 <= i < ModList.__len__ xs ->
  ModList.insert xs i x
  = Ok (ModList.ModList (<[Z.to_nat i := x]> (ModList.data xs)) (ModList.name xs)).
Proof.
  intros H. unfold ModList.insert. by rewrite norm_index_in_range.
Qed.

Lemma getitem_in_range xs i :
  0 <= i < ModList.__len__ xs ->
  exists m, ModList.data xs !! Z.to_nat i = Some m
            /\ ModList.__getitem__ xs i = Ok m.
Proof.
  intros H. unfold ModList.__getitem__. rewrite norm_index_in_range by done.
  destruct (lookup_lt_is_Some_2 (ModList.data xs) (Z.to_nat i)) as [m Hm].
  { unfold ModList.__len__ in H. lia. }
  exists m. by rewrite Hm.
Qed.

Lemma append_raises xs x : ModList.append xs x = Raise IndexError.
Proof.
  unfold ModList.append, ModList.insert, ModList.__len__.
  rewrite norm_index_out_of_range; [done | lia].
Qed.

End ModListFacts.

(** C10.  For every index [i] with [0 <= i < len(xs)], [insert(i, x)]
    puts [x] in place of the element at position [i]: the length is
    unchanged, position [i] then reads [x] and every other position reads
    as before.  For [i = len(xs)] it raises [IndexError], and so does
    [append], which makes exactly that call: on every list, the empty
    one included, whose [append] therefore never adds anything. *)
Theorem C10_insert_replaces_append_raises (xs : ModList.t) (x : Mod.t) :
  (forall i, 0 <= i < ModList.__len__ xs ->
     exists xs',
       ModList.insert xs i x = Ok xs'
       /\ ModList.__len__ xs' = ModList.__len__ xs
       /\ ModList.__getitem__ xs' i = Ok x
       /\ (forall j, 0 <= j < ModList.__len__ xs -> j <> i ->
                     ModList.__getitem__ xs' j = ModList.__getitem__ xs j))
  /\ ModList.insert xs (ModList.__len__ xs) x = Raise IndexError
  /\ ModList.append xs x = Raise IndexError.
Proof.
  split; [|split; apply append_raises].
  intros i Hi. eexists. split; [by apply insert_in_range|].
  assert (Hlen : ModList.__len__
                   (ModList.ModList (<[Z.to_nat i := x]> (ModList.data xs))
                                    (ModList.name xs)) = ModList.__len__ xs).
  { unfold ModList.__len__; simpl. by rewrite length_insert. }
  split; [exact Hlen|]. split.
  - unfold ModList.__getitem__; simpl. rewrite length_insert.
    rewrite norm_index_in_range by done.
    rewrite list_lookup_insert_eq; [done|]. unfold ModList.__len__ in Hi. lia.
  - intros j Hj Hne. unfold ModList.__getitem__; simpl. rewrite length_insert.
    rewrite norm_index_in_range by done.
    rewrite list_lookup_insert_ne; [done|]. lia.
Qed.

Lemma C10_insert_replaces_append_raises_witness :
  let xs := ModList.ModList [Mod.ModStub 1; Mod.ModStub 2] None in
  0 <= 1 < ModList.__len__ xs
  /\ (exists xs', ModList.insert xs 1 (Mod.ModStub 3) = Ok xs'
                  /\ ModList.__len__ xs' = 2
                  /\ ModList.__getitem__ xs' 1 = Ok (Mod.ModStub 3))
  /\ ModList.append xs (Mod.ModStub 3) = Raise IndexError
  /\ ModList.append (ModList.ModList [] None) (Mod.ModStub 3) = Raise IndexError.
Proof.
  intros xs.
  assert (H : 0 <= 1 < ModList.__len__ xs) by (unfold xs, ModList.__len__; simpl; lia).
  split; [exact H|].
  destruct (C10_insert_replaces_append_raises xs (Mod.ModStub 3))
    as (Hin & _ & Happ).
  destruct (Hin 1 H) as (xs' & Hins & Hlen & Hget & _).
  split; [exists xs'; by rewrite Hlen|].
  split; [exact Happ|].
  apply (C10_insert_replaces_append_raises (ModList.ModList [] None) (Mod.ModStub 3)).
Defined.

(** ** The graph that [Sort.graph] builds *)

Section Build.

Import DiGraph.

Lemma elem_of_add_node x n ns : x ∈ add_node n ns <-> x ∈ ns \/ x = n.
Proof.
  unfold add_node. destruct (decide (n ∈ ns)).
  - split; [by left | by intros [?| ->]].
  - rewrite elem_of_app, list_elem_of_singleton. done.
Qed.

Lemma NoDup_add_node n ns : NoDup ns -> NoDup (add_node n ns).
Proof.
  intros H. unfold add_node. destruct (decide (n ∈ ns)); [done|].
  apply NoDup_app. split; [done|]. split; [|apply NoDup_singleton].
  intros x Hx ->%list_elem_of_singleton. done.
Qed.

Lemma elem_of_edges_add_edge G u v e :
  e ∈ edges (add_edge G u v) <-> e ∈ edges G \/ e = (u, v).
Proof.
  unfold add_edge; simpl. destruct (decide ((u, v) ∈ edges G)).
  - split; [by left | by intros [?| ->]].
  - rewrite elem_of_app, list_elem_of_singleton. done.
Qed.

Lemma elem_of_nodes_add_edge G u v x :
  x ∈ nodes (add_edge G u v) <-> x ∈ nodes G \/ x = u \/ x = v.
Proof.
  unfold add_edge; simpl. rewrite !elem_of_add_node. tauto.
Qed.

Lemma well_formed_empty : well_formed empty.
Proof.
  split; [apply NoDup_nil_2|]. split; [apply NoDup_nil_2|].
  intros u v H. unfold edge in H; simpl in H. by apply elem_of_nil in H.
Qed.

Lemma well_formed_add_edge G u v : well_formed G -> well_formed (add_edge G u v).
Proof.
  intros (Hn & He & Hin). split; [|split].
  - simpl. by do 2 apply NoDup_add_node.
  - simpl. destruct (decide ((u, v) ∈ edges G)); [done|].
    apply NoDup_app. split; [done|]. split; [|apply NoDup_singleton].
    intros x Hx ->%list_elem_of_singleton. done.
  - intros a b Hab. unfold edge in Hab.
    apply elem_of_edges_add_edge in Hab. rewrite !elem_of_nodes_add_edge.
    destruct Hab as [Hab | [= -> ->]]; [|tauto].
    destruct (Hin a b Hab). tauto.
Qed.

Lemma nodes_are_ends_add_edge G u v :
  nodes_are_ends G -> nodes_are_ends (add_edge G u v).
Proof.
  intros H x Hx. apply elem_of_nodes_add_edge in Hx.
  destruct Hx as [Hx | Hx].
  - destruct (H x Hx) as (a & b & Hab & Hor). exists a, b. split; [|done].
    apply elem_of_edges_add_edge. by left.
  - exists u, v. split; [|done]. apply elem_of_edges_add_edge. by right.
Qed.

(** A loop keeps what each of its turns keeps. *)
Lemma foldl_invariant {A S} (I : S -> Prop) (body : S -> A -> S) l :
  (forall s x, I s -> I (body s x)) -> forall s, I s -> I (foldl body s l).
Proof. intros Hstep. induction l as [|x l IH]; simpl; auto. Qed.

(** The edges after a loop whose every turn adds the edges [Q x]. *)
Lemma foldl_edges {A} (Q : A -> string * string -> Prop)
  (body : t -> A -> t) l :
  (forall G x e, e ∈ edges (body G x) <-> e ∈ edges G \/ Q x e) ->
  forall G e, e ∈ edges (foldl body G l)
              <-> e ∈ edges G \/ exists x, x ∈ l /\ Q x e.
Proof.
  intros Hstep. induction l as [|x l IH]; intros G e; simpl.
  - split; [by left|]. intros [?|(x & Hx & _)]; [done|].
    by apply elem_of_nil in Hx.
  - rewrite IH, Hstep. split.
    + intros [[?|?]|(y & Hy & HQ)]; [by left| |].
      * right. exists x. split; [left|done].
      * right. exists y. split; [by right|done].
    + intros [?|(y & Hy & HQ)]; [by left; left|].
      apply elem_of_cons in Hy as [->|Hy]; [by left; right|].
      right. by exists y.
Qed.

Lemma if_truthy_for_foldl {A S} (body : S -> A -> S) s l :
  Sort.if_truthy_for body s l = foldl body s (default [] l).
Proof. by destruct l as [[|x l]|]. Qed.

Lemma in_ignore_false x : Sort.in_ignore x = false <-> x ∉ Sort.ignore.
Proof. unfold Sort.in_ignore. apply bool_decide_eq_false. Qed.

Lemma admitted_spec mods m x :
  py_in (PStr x) mods = true
  /\ negb (Sort.in_ignore x) && negb (Sort.in_ignore (Mod.packageid m)) = true
  <-> admitted mods m x.
Proof.
  unfold admitted. rewrite py_in_str, andb_true_iff, !negb_true_iff.
  rewrite !in_ignore_false. unfold in_collection. tauto.
Qed.

Lemma visit_after_edges mods m G a e :
  e ∈ edges (Sort.visit_after mods m G a)
  <-> e ∈ edges G \/ (admitted mods m a /\ e = (a, Mod.packageid m)).
Proof.
  rewrite <- admitted_spec. unfold Sort.visit_after.
  destruct (py_in (PStr a) mods); [|intuition congruence].
  destruct (negb (Sort.in_ignore a) && negb (Sort.in_ignore (Mod.packageid m)));
    [|intuition congruence].
  rewrite elem_of_edges_add_edge. tauto.
Qed.

Lemma visit_before_edges mods m G b e :
  e ∈ edges (Sort.visit_before mods m G b)
  <-> e ∈ edges G \/ (admitted mods m b /\ e = (Mod.packageid m, b)).
Proof.
  rewrite <- admitted_spec. unfold Sort.visit_before.
  destruct (py_in (PStr b) mods); [|intuition congruence].
  destruct (negb (Sort.in_ignore b) && negb (Sort.in_ignore (Mod.packageid m)));
    [|intuition congruence].
  rewrite elem_of_edges_add_edge. tauto.
Qed.

Lemma visit_mod_edges mods G m e :
  e ∈ edges (Sort.visit_mod mods G m) <-> e ∈ edges G \/ declares mods m e.
Proof.
  unfold Sort.visit_mod, declares. rewrite !if_truthy_for_foldl.
  rewrite (foldl_edges _ _ _ (visit_before_edges mods m)).
  rewrite (foldl_edges _ _ _ (visit_after_edges mods m)). tauto.
Qed.

Lemma build_edges mods e :
  e ∈ edges (Sort.build mods) <-> exists m, m ∈ mods /\ declares mods m e.
Proof.
  unfold Sort.build. rewrite (foldl_edges _ _ _ (visit_mod_edges mods)).
  simpl. split; [|by right]. intros [H|H]; [|done]. by apply elem_of_nil in H.
Qed.

(** What every turn of the loops of [build] keeps. *)
Lemma build_invariant (I : t -> Prop) mods :
  (forall G u v, I G -> I (add_edge G u v)) -> I empty -> I (Sort.build mods).
Proof.
  intros Hadd H0. unfold Sort.build. apply foldl_invariant; [|done].
  intros G m HG. unfold Sort.visit_mod. rewrite !if_truthy_for_foldl.
  apply foldl_invariant.
  - intros G' b HG'. unfold Sort.visit_before.
    repeat case_match; auto.
  - apply foldl_invariant; [|done].
    intros G' a HG'. unfold Sort.visit_after. repeat case_match; auto.
Qed.

Lemma build_well_formed mods : well_formed (Sort.build mods).
Proof.
  apply build_invariant; [|apply well_formed_empty].
  intros G u v. apply well_formed_add_edge.
Qed.

Lemma build_nodes_are_ends mods : nodes_are_ends (Sort.build mods).
Proof.
  apply build_invariant.
  - intros G u v. apply nodes_are_ends_add_edge.
  - intros x Hx. by apply elem_of_nil in Hx.
Qed.

Lemma build_edge_ends mods u v :
  edge (Sort.build mods) u v ->
  (in_collection mods u /\ u ∉ Sort.ignore)
  /\ (in_collection mods v /\ v ∉ Sort.ignore).
Proof.
  intros H. apply build_edges in H as (m & Hm & [H|H]).
  - destruct H as (a & Ha & (Hin & Hia & Him) & [= -> ->]).
    split; [done|]. split; [by exists m|done].
  - destruct H as (b & Hb & (Hin & Hib & Him) & [= -> ->]).
    split; [|done]. split; [by exists m|done].
Qed.

End Build.

(** C4.  The edges of the built graph are exactly these: for a record
    [m] and an id [b] of [m.before] that names a record of the
    collection, the edge from [m] to [b]; for an id [a] of [m.after]
    that names a record of the collection, the edge from [a] to [m];
    each only when neither end is in the ignore list.  So an id that
    names no record of the collection, and an id of the ignore list, is
    the end of no edge and is no node (and building never fails: [build]
    is a total function). *)
Theorem C4_edges_of_built_graph (mods : list Mod.t) :
  (forall u v,
      edge (Sort.build mods) u v
      <-> exists m, m ∈ mods /\ (u ∉ Sort.ignore) /\ (v ∉ Sort.ignore)
          /\ ((u = Mod.packageid m /\ v ∈ default [] (Mod.before m)
               /\ in_collection mods v)
              \/ (v = Mod.packageid m /\ u ∈ default [] (Mod.after m)
                  /\ in_collection mods u)))
  /\ (forall x, ~ in_collection mods x \/ x ∈ Sort.ignore ->
                (x ∉ DiGraph.nodes (Sort.build mods))
                /\ forall u v, edge (Sort.build mods) u v -> u <> x /\ v <> x).
Proof.
  split.
  - intros u v. unfold edge. rewrite build_edges. split.
    + intros (m & Hm & [H|H]).
      * destruct H as (a & Ha & (Hin & Hia & Him) & [= -> ->]).
        exists m. split; [done|]. split; [done|]. split; [done|]. by right.
      * destruct H as (b & Hb & (Hin & Hib & Him) & [= -> ->]).
        exists m. split; [done|]. split; [done|]. split; [done|]. by left.
    + intros (m & Hm & Hu & Hv & [(-> & Hb & Hin)|(-> & Ha & Hin)]).
      * exists m. split; [done|]. right. by exists v.
      * exists m. split; [done|]. left. by exists u.
  - intros x Hx.
    assert (Hends : forall u v, edge (Sort.build mods) u v -> u <> x /\ v <> x).
    { intros u v Huv. destruct (build_edge_ends mods u v Huv) as [[? ?] [? ?]].
      split; intros ->; tauto. }
    split; [|done]. intros Hn.
    destruct (build_nodes_are_ends mods x Hn) as (u & v & Huv & Hor).
    destruct (Hends u v Huv). destruct Hor; congruence.
Qed.

(** The built graph reads the package id, [before] and [after] of the
    records and nothing else. *)
Lemma py_in_set_ignored (flag : Mod.t -> bool) x mods :
  py_in x ((fun m => set_ignored (flag m) m) <$> mods) = py_in x mods.
Proof.
  unfold py_in. induction mods as [|m mods IH]; [done|].
  csimpl. rewrite IH. f_equal.
Qed.

Lemma visit_mod_set_ignored mods mods' b m :
  (forall x, py_in (PStr x) mods' = py_in (PStr x) mods) ->
  forall G, Sort.visit_mod mods' G (set_ignored b m) = Sort.visit_mod mods G m.
Proof.
  intros Hin G. unfold Sort.visit_mod; simpl.
  assert (Ha : forall l G0, foldl (Sort.visit_after mods' (set_ignored b m)) G0 l
                            = foldl (Sort.visit_after mods m) G0 l).
  { induction l as [|a l IH]; intros G0; [done|]. simpl. rewrite IH.
    f_equal. unfold Sort.visit_after. by rewrite Hin. }
  assert (Hb : forall l G0, foldl (Sort.visit_before mods' (set_ignored b m)) G0 l
                            = foldl (Sort.visit_before mods m) G0 l).
  { induction l as [|x l IH]; intros G0; [done|]. simpl. rewrite IH.
    f_equal. unfold Sort.visit_before. by rewrite Hin. }
  rewrite !if_truthy_for_foldl. by rewrite Ha, Hb.
Qed.

Lemma build_set_ignored (flag : Mod.t -> bool) mods :
  Sort.build ((fun m => set_ignored (flag m) m) <$> mods) = Sort.build mods.
Proof.
  unfold Sort.build.
  assert (H : forall ms G,
             foldl (Sort.visit_mod ((fun m => set_ignored (flag m) m) <$> mods)) G
                   ((fun m => set_ignored (flag m) m) <$> ms)
             = foldl (Sort.visit_mod mods) G ms).
  { induction ms as [|m ms IH]; intros G; [done|]. csimpl.
    rewrite (visit_mod_set_ignored mods); [apply IH|].
    intros x. apply py_in_set_ignored. }
  apply H.
Qed.

(** C5, as the code has it.  A package id of the ignore list is no node
    of the built graph and no end of an edge.  The [ignored] flag of a
    record is not read: setting or clearing it on any records of the
    collection leaves the built graph as it is. *)
Theorem C5_ignore_list_only (mods : list Mod.t) :
  (forall x, x ∈ Sort.ignore ->
             (x ∉ DiGraph.nodes (Sort.build mods))
             /\ forall u v, edge (Sort.build mods) u v -> u <> x /\ v <> x)
  /\ (forall flag : Mod.t -> bool,
         Sort.build ((fun m => set_ignored (flag m) m) <$> mods)
         = Sort.build mods).
Proof.
  split; [|intros flag; apply build_set_ignored].
  intros x Hx.
  assert (Hends : forall u v, edge (Sort.build mods) u v -> u <> x /\ v <> x).
  { intros u v Huv. destruct (build_edge_ends mods u v Huv) as [[? ?] [? ?]].
    split; intros ->; tauto. }
  split; [|done]. intros Hn.
  destruct (build_nodes_are_ends mods x Hn) as (u & v & Huv & Hor).
  destruct (Hends u v Huv). destruct Hor; congruence.
Qed.

(** C5 as stated fails: the record [A] has its [ignored] flag set and
    declares [before: B]; it is a node of the built graph all the same,
    and its edge to [B] is there. *)
Lemma C5_ignored_record_in_graph :
  let A := set_ignored true (ordering_mod "A" ["B"] []) in
  let B := ordering_mod "B" [] [] in
  Mod.ignored A = true
  /\ "A" ∈ DiGraph.nodes (Sort.build [A; B])
  /\ edge (Sort.build [A; B]) "A" "B".
Proof.
  intros A B. split; [reflexivity|]. unfold edge.
  split; compute_done.
Qed.

(** ** The topological sort *)

Section ForEach.

Context {A S : Type} (body : S -> A -> result S).

Lemma for_each_app s l1 l2 :
  for_each body s (l1 ++ l2)
  = match for_each body s l1 with
    | Ok s' => for_each body s' l2
    | Raise e => Raise e
    end.
Proof.
  revert s. induction l1 as [|x l1 IH]; intros s; [done|].
  simpl. destruct (body s x); [apply IH | done].
Qed.

End ForEach.

Section Counting.

Lemma occurrences_cons v x l :
  occurrences v (x :: l)
  = if decide (x = v) then Datatypes.S (occurrences v l) else occurrences v l.
Proof.
  unfold occurrences. destruct (decide (x = v)) as [->|Hne].
  - by rewrite filter_cons_True.
  - by rewrite filter_cons_False.
Qed.

Lemma occurrences_app v l1 l2 :
  occurrences v (l1 ++ l2) = (occurrences v l1 + occurrences v l2)%nat.
Proof. unfold occurrences. by rewrite filter_app, length_app. Qed.

Lemma occurrences_zero v l : occurrences v l = 0%nat <-> v ∉ l.
Proof.
  induction l as [|x l IH].
  - split; [intros _; apply not_elem_of_nil | done].
  - rewrite occurrences_cons, not_elem_of_cons.
    destruct (decide (x = v)) as [->|Hne].
    + split; [done | intros [? _]; done].
    + rewrite IH. split; [intros; split; [congruence|done] | tauto].
Qed.

Lemma occurrences_pos v l : (0 < occurrences v l)%nat <-> v ∈ l.
Proof.
  destruct (decide (v ∈ l)) as [Hin|Hnin].
  - split; [done|]. intros _.
    destruct (occurrences v l) eqn:E; [|lia].
    apply occurrences_zero in E. done.
  - apply occurrences_zero in Hnin as E. rewrite E. split; [lia | done].
Qed.

Lemma filter_ext_elem {A} (P Q : A -> Prop)
  `{!forall x, Decision (P x)} `{!forall x, Decision (Q x)} (l : list A) :
  (forall x, x ∈ l -> P x <-> Q x) -> filter P l = filter Q l.
Proof.
  induction l as [|a l IH]; intros Hext; [done|].
  rewrite !filter_cons.
  assert (Ha : P a <-> Q a) by (apply Hext; left).
  assert (Hl : filter P l = filter Q l)
    by (apply IH; intros y Hy; apply Hext; by right).
  destruct (decide (P a)), (decide (Q a)); try tauto; by rewrite Hl.
Qed.

Lemma elem_of_last_mentions v l : v ∈ last_mentions l <-> v ∈ l.
Proof.
  induction l as [|x l IH]; [done|]. simpl.
  destruct (decide (x ∈ l)) as [Hx|Hx].
  - rewrite IH, elem_of_cons. split; [tauto|]. intros [->|?]; done.
  - by rewrite !elem_of_cons, IH.
Qed.

End Counting.

Section VisitChildren.

Import Topo.

(** The effect of one generation's inner loops on the in-degree map: the
    count of every child goes down by the number of times the child is
    visited; the children that reach zero leave the map and form, each
    once, the next generation. *)
Lemma visit_children_spec (C : list string) :
  forall (indeg : gmap string Z) (z0 : list string),
    (forall v d, indeg !! v = Some d -> 0 < d) ->
    (forall v, v ∈ C ->
               exists d, indeg !! v = Some d /\ Z.of_nat (occurrences v C) <= d) ->
    exists indeg' newz,
      for_each visit_child (indeg, z0) C = Ok (indeg', z0 ++ newz)
      /\ NoDup newz
      /\ (forall v, v ∈ newz <-> indeg !! v = Some (Z.of_nat (occurrences v C)))
      /\ (forall v d, indeg' !! v = Some d
                      <-> 0 < d /\ indeg !! v = Some (d + Z.of_nat (occurrences v C))).
Proof.
  induction C as [|x C IH]; intros indeg z0 Hpos Hpre.
  - exists indeg, []. rewrite app_nil_r. split; [done|].
    split; [apply NoDup_nil_2|]. split.
    + intros v. split; [intros H; by apply elem_of_nil in H|].
      intros H. apply Hpos in H. change (0 < 0) in H. lia.
    + intros v d. change (Z.of_nat (occurrences v [])) with 0.
      rewrite Z.add_0_r. split; [|tauto].
      intros H. split; [by eapply Hpos | done].
  - destruct (Hpre x) as (d & Hx & Hd); [left|].
    rewrite occurrences_cons in Hd. rewrite decide_True in Hd by done.
    simpl. rewrite Hx. destruct (Z.eqb_spec (d - 1) 0) as [Hd1|Hd1].
    + assert (d = 1) as -> by lia.
      assert (Hocc : occurrences x C = 0%nat) by lia.
      assert (HxC : x ∉ C) by by apply occurrences_zero.
      destruct (IH (delete x indeg) (z0 ++ [x])) as (indeg' & newz & Hrun & Hnd & Hz & Hm).
      { intros v d0 [_ H]%lookup_delete_Some. by eapply Hpos. }
      { intros v Hv. assert (x <> v) by (intros ->; done).
        destruct (Hpre v) as (d0 & Hv0 & Hd0); [by right|].
        rewrite occurrences_cons, decide_False in Hd0 by done.
        exists d0. by rewrite lookup_delete_ne. }
      exists indeg', (x :: newz). rewrite Hrun, <- app_assoc. simpl.
      split; [done|]. split; [|split].
      * apply NoDup_cons. split; [|done]. rewrite Hz, lookup_delete_eq. done.
      * intros v. rewrite elem_of_cons, Hz, occurrences_cons.
        destruct (decide (x = v)) as [<-|Hne].
        -- rewrite Hx, Hocc. split; [done | by left].
        -- rewrite lookup_delete_ne by done. split; [|tauto].
           intros [->|?]; done.
      * intros v d0. rewrite Hm, occurrences_cons.
        destruct (decide (x = v)) as [<-|Hne].
        -- rewrite lookup_delete_eq, Hx, Hocc. split; [intros [_ ?]; done|].
           intros [H0 [= H1]]. lia.
        -- by rewrite lookup_delete_ne.
    + destruct (IH (<[x := d - 1]> indeg) z0) as (indeg' & newz & Hrun & Hnd & Hz & Hm).
      { intros v d0 [[<- <-]|[_ H]]%lookup_insert_Some; [lia | by eapply Hpos]. }
      { intros v Hv. destruct (decide (x = v)) as [<-|Hne].
        - exists (d - 1). rewrite lookup_insert_eq. split; [done | lia].
        - destruct (Hpre v) as (d0 & Hv0 & Hd0); [by right|].
          rewrite occurrences_cons, decide_False in Hd0 by done.
          exists d0. by rewrite lookup_insert_ne. }
      exists indeg', newz. split; [done|]. split; [done|]. split.
      * intros v. rewrite Hz, occurrences_cons.
        destruct (decide (x = v)) as [<-|Hne].
        -- rewrite lookup_insert_eq, Hx.
           split; intros [= H]; f_equal; lia.
        -- by rewrite lookup_insert_ne.
      * intros v d0. rewrite Hm, occurrences_cons.
        destruct (decide (x = v)) as [<-|Hne].
        -- rewrite lookup_insert_eq, Hx.
           split; intros [H0 [= H1]]; (split; [done | f_equal; lia]).
        -- by rewrite lookup_insert_ne.
Qed.

(** The order of the next generation: a child joins it at the visit
    that takes its count to zero, the last of its visits. *)
Lemma visit_children_order (C : list string) :
  forall (indeg : gmap string Z) (z0 : list string) indeg' z',
    (forall v d, indeg !! v = Some d -> 0 < d) ->
    (forall v, v ∈ C ->
               exists d, indeg !! v = Some d /\ Z.of_nat (occurrences v C) <= d) ->
    for_each visit_child (indeg, z0) C = Ok (indeg', z') ->
    z' = z0 ++ filter (fun v => indeg !! v = Some (Z.of_nat (occurrences v C)))
                      (last_mentions C).
Proof.
  induction C as [|x C IH]; intros indeg z0 indeg' z' Hpos Hpre Hrun.
  - simpl in Hrun. injection Hrun as _ <-. by rewrite app_nil_r.
  - destruct (Hpre x) as (d & Hx & Hd); [left|].
    rewrite occurrences_cons in Hd. rewrite decide_True in Hd by done.
    simpl in Hrun. rewrite Hx in Hrun.
    destruct (Z.eqb_spec (d - 1) 0) as [Hd1|Hd1].
    + assert (d = 1) as -> by lia.
      assert (Hocc : occurrences x C = 0%nat) by lia.
      assert (HxC : x ∉ C) by by apply occurrences_zero.
      apply IH in Hrun.
      * rewrite Hrun, <- app_assoc. f_equal. cbn [last_mentions].
        rewrite decide_False by done.
        rewrite filter_cons_True
          by (rewrite Hx, occurrences_cons, decide_True, Hocc; done).
        simpl. f_equal. apply filter_ext_elem.
        intros v Hv. apply (proj1 (elem_of_last_mentions _ _)) in Hv.
        assert (x <> v) by (intros ->; done).
        by rewrite lookup_delete_ne, occurrences_cons, decide_False.
      * intros v d0 [_ H]%lookup_delete_Some. by eapply Hpos.
      * intros v Hv. assert (x <> v) by (intros ->; done).
        destruct (Hpre v) as (d0 & Hv0 & Hd0); [by right|].
        rewrite occurrences_cons, decide_False in Hd0 by done.
        exists d0. by rewrite lookup_delete_ne.
    + apply IH in Hrun.
      * rewrite Hrun. f_equal. cbn [last_mentions].
        assert (Hext : forall v,
                   <[x := d - 1]> indeg !! v = Some (Z.of_nat (occurrences v C))
                   <-> indeg !! v = Some (Z.of_nat (occurrences v (x :: C)))).
        { intros v. rewrite occurrences_cons.
          destruct (decide (x = v)) as [<-|Hne].
          - rewrite lookup_insert_eq, Hx. split; intros [= H]; f_equal; lia.
          - by rewrite lookup_insert_ne. }
        destruct (decide (x ∈ C)) as [HxC|HxC].
        -- apply filter_ext_elem. intros v _. apply Hext.
        -- rewrite filter_cons_False.
           ++ apply filter_ext_elem. intros v _. apply Hext.
           ++ rewrite Hx, occurrences_cons, decide_True by done.
              apply occurrences_zero in HxC. rewrite HxC.
              intros [= H]. lia.
      * intros v d0 [[<- <-]|[_ H]]%lookup_insert_Some; [lia | by eapply Hpos].
      * intros v Hv. destruct (decide (x = v)) as [<-|Hne].
        -- exists (d - 1). rewrite lookup_insert_eq. split; [done | lia].
        -- destruct (Hpre v) as (d0 & Hv0 & Hd0); [by right|].
           rewrite occurrences_cons, decide_False in Hd0 by done.
           exists d0. by rewrite lookup_insert_ne.
Qed.

End VisitChildren.

Section Precedes.

Context {A : Type}.
Implicit Types (l k : list A) (u v : A).

Lemma precedes_app_l l k u v : precedes l u v -> precedes (l ++ k) u v.
Proof.
  intros (i & j & Hi & Hj & Hlt). exists i, j.
  split; [|split; [|done]].
  - rewrite lookup_app_l; [done | by eapply lookup_lt_Some].
  - rewrite lookup_app_l; [done | by eapply lookup_lt_Some].
Qed.

Lemma precedes_app_cross l k u v : u ∈ l -> v ∈ k -> precedes (l ++ k) u v.
Proof.
  intros [i Hi]%list_elem_of_lookup_1 [j Hj]%list_elem_of_lookup_1.
  exists i, (length l + j)%nat. apply lookup_lt_Some in Hi as Hlt.
  split; [by rewrite lookup_app_l|].
  split; [|lia]. rewrite lookup_app_r by lia.
  by replace (length l + j - length l)%nat with j by lia.
Qed.

Lemma precedes_elem_of_l l u v : precedes l u v -> u ∈ l.
Proof. intros (i & j & Hi & _). by eapply list_elem_of_lookup_2. Qed.

Lemma precedes_trans l u v w :
  NoDup l -> precedes l u v -> precedes l v w -> precedes l u w.
Proof.
  intros Hnd (i & j & Hi & Hj & Hij) (j' & k & Hj' & Hk & Hjk).
  assert (j = j') as <- by by eapply NoDup_lookup.
  exists i, k. split; [done|]. split; [done|lia].
Qed.

Lemma precedes_irrefl l u : NoDup l -> ~ precedes l u u.
Proof.
  intros Hnd (i & j & Hi & Hj & Hij).
  assert (i = j) by by eapply NoDup_lookup. lia.
Qed.

(** In a sequence without repetition, what precedes the element after
    [pre] lies in [pre]. *)
Lemma precedes_split pre x post u :
  NoDup (pre ++ x :: post) -> precedes (pre ++ x :: post) u x -> u ∈ pre.
Proof.
  intros Hnd (i & j & Hi & Hj & Hij).
  assert (j = length pre).
  { eapply NoDup_lookup; [done..|]. by rewrite list_lookup_middle. }
  subst j. rewrite lookup_app_l in Hi by done.
  by eapply list_elem_of_lookup_2.
Qed.

End Precedes.

Section EdgeCounts.

Import DiGraph.

Implicit Types (l : list (string * string)) (zero done : list string).

Lemma length_filter_zero {A} (P : A -> Prop) `{!forall x, Decision (P x)}
  (l : list A) :
  length (filter P l) = 0%nat <-> forall x, x ∈ l -> ~ P x.
Proof.
  induction l as [|x l IH].
  - split; [|done]. intros _ x Hx. by apply elem_of_nil in Hx.
  - rewrite filter_cons. destruct (decide (P x)) as [HP|HP]; simpl.
    + split; [done|]. intros Hall. exfalso. apply (Hall x); [left | done].
    + rewrite IH. split.
      * intros Hall y [->|Hy]%elem_of_cons; auto.
      * intros Hall y Hy. apply Hall. by right.
Qed.

Lemma count_sources_cons l n zero v :
  n ∉ zero ->
  length (filter (fun e => e.2 = v /\ e.1 ∈ n :: zero) l)
  = (occurrences v (filter (fun e => e.1 = n) l).*2
     + length (filter (fun e => e.2 = v /\ e.1 ∈ zero) l))%nat.
Proof.
  intros Hn. induction l as [|[a b] l IH]; [done|].
  rewrite !filter_cons. simpl.
  destruct (decide (a = n)) as [->|Hne].
  - rewrite fmap_cons, occurrences_cons. simpl.
    destruct (decide (b = v)) as [->|Hb].
    + rewrite decide_True by (split; [done | left]).
      rewrite decide_False by tauto. simpl. by rewrite IH.
    + rewrite decide_False by tauto. rewrite decide_False by tauto. done.
  - destruct (decide (b = v /\ a ∈ zero)) as [[-> Ha]|Hb].
    + rewrite decide_True by (split; [done | by right]). simpl.
      rewrite IH. lia.
    + rewrite decide_False; [done|].
      intros [-> [?|?]%elem_of_cons]; tauto.
Qed.

Lemma occurrences_bind_neighbors G zero v :
  NoDup zero -> occurrences v (zero ≫= neighbors G) = into_from G zero v.
Proof.
  unfold into_from, neighbors. induction 1 as [|n zero Hn Hnd IH].
  - simpl. symmetry. apply length_filter_zero.
    intros e _ [_ H]. by apply elem_of_nil in H.
  - rewrite bind_cons, occurrences_app, IH. symmetry.
    by apply count_sources_cons.
Qed.

Lemma pending_split G done zero v :
  (forall x, x ∈ zero -> x ∉ done) ->
  pending G done v = (pending G (done ++ zero) v + into_from G zero v)%nat.
Proof.
  intros Hdisj. unfold pending, into_from.
  induction (edges G) as [|[a b] l IH]; [done|].
  rewrite !filter_cons. simpl.
  destruct (decide (b = v)) as [->|Hb].
  - destruct (decide (a ∈ zero)) as [Hz|Hz].
    + rewrite decide_True by (split; [done | by apply Hdisj]).
      rewrite decide_False by (rewrite elem_of_app; tauto).
      rewrite decide_True by done. simpl. rewrite IH. lia.
    + destruct (decide (a ∈ done)) as [Hd|Hd].
      * rewrite decide_False by tauto.
        rewrite decide_False by (rewrite elem_of_app; tauto).
        by rewrite decide_False by tauto.
      * rewrite decide_True by done.
        rewrite decide_True by (rewrite elem_of_app; tauto).
        rewrite decide_False by tauto. simpl. by rewrite IH.
  - by rewrite !decide_False by tauto.
Qed.

Lemma pending_zero G done v :
  pending G done v = 0%nat <-> forall u, edge G u v -> u ∈ done.
Proof.
  unfold pending, edge. rewrite length_filter_zero. split.
  - intros H u Hu. destruct (decide (u ∈ done)) as [|Hn]; [done|].
    exfalso. by apply (H (u, v) Hu).
  - intros H [a b] He [Hb Ha]. simpl in *. subst b. by apply Ha, H.
Qed.

Lemma in_degree_pending G v : in_degree G v = Z.of_nat (pending G [] v).
Proof.
  unfold in_degree, pending. do 2 f_equal. apply list_filter_iff.
  intros e. split; [|tauto]. intros H. split; [done | apply not_elem_of_nil].
Qed.

Lemma elem_of_neighbors G u v : v ∈ neighbors G u <-> edge G u v.
Proof.
  unfold neighbors, edge. rewrite list_elem_of_fmap. split.
  - intros ([a b] & -> & [Ha Hin]%list_elem_of_filter). simpl in *. by subst.
  - intros H. exists (u, v). split; [done|]. by apply list_elem_of_filter.
Qed.

End EdgeCounts.

Section Cycles.

Context {A : Type} (R : relation A).

(** A non-empty finite set in which every element has a predecessor
    cannot live in a relation without cycles: such a relation has a
    minimal element in every non-empty finite set. *)
Lemma closed_set_has_cycle (l : list A) :
  l <> [] ->
  (forall v, v ∈ l -> exists u, u ∈ l /\ R u v) ->
  ~ (forall v, ~ tc R v v).
Proof.
  intros Hne Hclosed Hacyc.
  assert (Hmin : forall k : list A, k <> [] ->
            ~ ~ exists m, m ∈ k /\ forall u, u ∈ k -> ~ tc R u m).
  { induction k as [|x k IH]; [done|]. intros _ Hno.
    destruct k as [|y k].
    - apply Hno. exists x. split; [left|].
      intros u ->%list_elem_of_singleton. apply Hacyc.
    - apply IH; [done|]. intros (m & Hm & Hmin).
      assert (Hem : ~ ~ (tc R x m \/ ~ tc R x m)) by tauto.
      apply Hem. intros [Hxm|Hxm]; apply Hno.
      + exists x. split; [left|].
        intros u [->|Hu]%elem_of_cons; [apply Hacyc|].
        intros Hux. apply (Hmin u Hu). by etrans.
      + exists m. split; [by right|].
        intros u [->|Hu]%elem_of_cons; [done | by apply Hmin]. }
  apply (Hmin l Hne). intros (m & Hm & Hmin').
  destruct (Hclosed m Hm) as (u & Hu & Hum).
  apply (Hmin' u Hu). by apply tc_once.
Qed.

(** A sequence without repetition in which every related pair stands in
    order witnesses that the relation has no cycle. *)
Lemma ordered_no_cycle (l : list A) :
  NoDup l -> (forall u v, R u v -> precedes l u v) -> forall v, ~ tc R v v.
Proof.
  intros Hnd Hord v Hvv.
  assert (H : forall a b, tc R a b -> precedes l a b).
  { induction 1 as [a b Hab|a b c Hab _ IH]; [by apply Hord|].
    eapply precedes_trans; [done | by apply Hord | done]. }
  by apply (precedes_irrefl l v Hnd), H.
Qed.

End Cycles.

Section Generations.

Import DiGraph Topo.

Variable G : DiGraph.t.
Hypothesis Hwf : well_formed G.

Lemma for_each_visit_node st zero :
  (forall v, v ∈ zero -> v ∈ nodes G) ->
  for_each (visit_node G) st zero
  = for_each visit_child st (zero ≫= neighbors G).
Proof.
  revert st. induction zero as [|n zero IH]; intros st Hin; [done|].
  rewrite bind_cons, for_each_app. simpl. unfold visit_node at 1.
  rewrite decide_True by (apply Hin; left).
  destruct (for_each visit_child st (neighbors G n)); [|done].
  apply IH. intros v Hv. apply Hin. by right.
Qed.

Lemma pending_pos done v :
  (0 < pending G done v)%nat -> exists u, edge G u v /\ u ∉ done.
Proof.
  unfold pending. intros Hpos.
  destruct (filter _ (edges G)) as [|[a b] l] eqn:E; [simpl in Hpos; lia|].
  assert (Hin : (a, b) ∈ filter (fun e => e.2 = v /\ e.1 ∉ done) (edges G))
    by (rewrite E; left).
  apply list_elem_of_filter in Hin as [[Hb Ha] Hin]. simpl in *. subst b.
  by exists a.
Qed.

Lemma initial_indegree_map_lookup v :
  initial_indegree_map G !! v
  = if decide (v ∈ nodes G /\ 0 < in_degree G v)
    then Some (in_degree G v) else None.
Proof.
  unfold initial_indegree_map.
  assert (H : forall l (m : gmap string Z),
            foldl (fun m v => if 0 <? in_degree G v
                              then <[v := in_degree G v]> m else m) m l !! v
            = if decide (v ∈ l /\ 0 < in_degree G v)
              then Some (in_degree G v) else m !! v).
  { induction l as [|x l IH]; intros m; cbn [foldl].
    - rewrite decide_False; [done|]. intros [H _]. by apply elem_of_nil in H.
    - rewrite IH. destruct (decide (v ∈ l /\ 0 < in_degree G v)) as [[Hl Hp]|Hn].
      + rewrite decide_True; [done|]. split; [by right | done].
      + destruct (Z.ltb_spec 0 (in_degree G x)) as [Hx|Hx].
        * destruct (decide (x = v)) as [->|Hne].
          -- rewrite lookup_insert_eq. rewrite decide_True; [done|].
             split; [left | done].
          -- rewrite lookup_insert_ne by done. rewrite decide_False; [done|].
             intros [[->|?]%elem_of_cons ?]; tauto.
        * rewrite decide_False; [done|].
          intros [[->|?]%elem_of_cons ?]; [lia | tauto]. }
  rewrite H. by rewrite lookup_empty.
Qed.

Lemma initial_invariant :
  loop_invariant G [] (initial_zero_indegree G) (initial_indegree_map G).
Proof.
  destruct Hwf as (Hnd & _ & _). unfold initial_zero_indegree.
  constructor; simpl.
  - by apply NoDup_filter.
  - intros v [_ Hv]%list_elem_of_filter. done.
  - intros v Hv. rewrite initial_indegree_map_lookup.
    destruct (decide (v ∈ nodes G /\ 0 < in_degree G v)) as [|Hn]; [done|].
    intros _. apply list_elem_of_filter. split; [|done].
    assert (Hle : ~ 0 < in_degree G v) by tauto.
    unfold in_degree in *. lia.
  - intros v d. rewrite initial_indegree_map_lookup.
    destruct (decide (v ∈ nodes G /\ 0 < in_degree G v)) as [[Hv Hp]|Hn]; [|done].
    intros [= <-]. split; [done|]. split.
    + intros [Hd _]%list_elem_of_filter. lia.
    + split; [done | apply in_degree_pending].
  - intros u v Huv [Hd _]%list_elem_of_filter.
    rewrite in_degree_pending in Hd.
    assert (H0 : pending G [] v = 0%nat) by lia.
    by eapply pending_zero.
  - intros u v _ Hv. by apply elem_of_nil in Hv.
Qed.

(** One iteration of the loop re-establishes the invariant, and raises
    nothing. *)
Lemma generation_step done zero indeg :
  loop_invariant G done zero indeg ->
  exists indeg' zero',
    for_each (visit_node G) (indeg, []) zero = Ok (indeg', zero')
    /\ loop_invariant G (done ++ zero) zero' indeg'.
Proof.
  intros [Hnd Hnodes Hnone Hsome Hzero Horder].
  apply NoDup_app in Hnd as Hnd'. destruct Hnd' as (Hnd_done & Hdisj & Hnd_zero).
  assert (Hdisj' : forall x, x ∈ zero -> x ∉ done)
    by (intros x Hx Hd; by apply (Hdisj x)).
  rewrite for_each_visit_node
    by (intros v Hv; apply Hnodes; rewrite elem_of_app; by right).
  assert (Hocc : forall v, occurrences v (zero ≫= neighbors G) = into_from G zero v)
    by (intros v; by apply occurrences_bind_neighbors).
  assert (Hsplit := fun v => pending_split G done zero v Hdisj').
  assert (Hpred : forall u v, edge G u v -> v ∈ done ++ zero -> u ∈ done).
  { intros u v Huv [Hv|Hv]%elem_of_app.
    - eapply precedes_elem_of_l, Horder; done.
    - by eapply Hzero. }
  destruct (visit_children_spec (zero ≫= neighbors G) indeg [])
    as (indeg' & newz & Hrun & Hndz & Hz & Hm).
  { intros v d Hv. by destruct (Hsome v d Hv) as (_ & _ & ? & _). }
  { intros v (u & Huv%elem_of_neighbors & Hu)%list_elem_of_bind.
    destruct (indeg !! v) as [d|] eqn:Hv.
    - exists d. split; [done|]. destruct (Hsome v d Hv) as (_ & _ & _ & ->).
      specialize (Hocc v). specialize (Hsplit v). lia.
    - exfalso. destruct Hwf as (_ & _ & Hends).
      destruct (Hends u v Huv) as [_ Hvn]. apply (Hdisj' u Hu).
      eapply Hpred; [done|]. by apply Hnone. }
  simpl in Hrun. exists indeg', newz. split; [done|]. constructor.
  - apply NoDup_app. split; [done|]. split; [|done].
    intros x Hx Hxz. apply Hz in Hxz.
    by destruct (Hsome _ _ Hxz) as (_ & Hn & _).
  - intros v [Hv|Hv]%elem_of_app; [by apply Hnodes|].
    apply Hz in Hv. by destruct (Hsome _ _ Hv).
  - intros v Hvn Hv'. rewrite elem_of_app.
    destruct (indeg !! v) as [d|] eqn:Hv; [|left; by apply Hnone].
    right. apply Hz. rewrite Hv. f_equal.
    destruct (Hsome v d Hv) as (_ & _ & Hpos & Hd).
    destruct (decide (d = Z.of_nat (occurrences v (zero ≫= neighbors G))))
      as [|Hne]; [done|]. exfalso.
    assert (Hv'' : indeg' !! v
                   = Some (d - Z.of_nat (occurrences v (zero ≫= neighbors G)))).
    { apply Hm. specialize (Hocc v). specialize (Hsplit v).
      split; [lia|]. rewrite Hv. f_equal. lia. }
    congruence.
  - intros v d [Hpos Hv]%Hm.
    destruct (Hsome _ _ Hv) as (Hvn & Hnin & _ & Hd).
    specialize (Hocc v). specialize (Hsplit v).
    split; [done|]. split; [|split; [done | lia]].
    rewrite elem_of_app. intros [?|Hvz]; [done|].
    apply Hz in Hvz. rewrite Hv in Hvz. injection Hvz. lia.
  - intros u v Huv Hv. apply Hz in Hv.
    destruct (Hsome _ _ Hv) as (_ & _ & _ & Hd).
    specialize (Hocc v). specialize (Hsplit v).
    assert (H0 : pending G (done ++ zero) v = 0%nat) by lia.
    by eapply pending_zero.
  - intros u v Huv [Hv|Hv]%elem_of_app.
    + apply precedes_app_l. by apply Horder.
    + apply precedes_app_cross; [by eapply Hzero | done].
Qed.

(** The generation that one iteration leaves for the next. *)
Lemma generation_step_order done zero indeg indeg' zero' :
  loop_invariant G done zero indeg ->
  for_each (visit_node G) (indeg, []) zero = Ok (indeg', zero') ->
  zero' = freed_by G done zero.
Proof.
  intros [Hnd Hnodes Hnone Hsome Hzero Horder] Hrun.
  apply NoDup_app in Hnd as Hnd'. destruct Hnd' as (Hnd_done & Hdisj & Hnd_zero).
  assert (Hdisj' : forall x, x ∈ zero -> x ∉ done)
    by (intros x Hx Hd; by apply (Hdisj x)).
  rewrite for_each_visit_node in Hrun
    by (intros v Hv; apply Hnodes; rewrite elem_of_app; by right).
  assert (Hocc : forall v, occurrences v (zero ≫= neighbors G) = into_from G zero v)
    by (intros v; by apply occurrences_bind_neighbors).
  assert (Hsplit := fun v => pending_split G done zero v Hdisj').
  assert (Hpred : forall u v, edge G u v -> v ∈ done ++ zero -> u ∈ done).
  { intros u v Huv [Hv|Hv]%elem_of_app.
    - eapply precedes_elem_of_l, Horder; done.
    - by eapply Hzero. }
  assert (Hchild : forall v, v ∈ zero ≫= neighbors G ->
            exists d, indeg !! v = Some d
                      /\ d = Z.of_nat (pending G done v)).
  { intros v (u & Huv%elem_of_neighbors & Hu)%list_elem_of_bind.
    destruct (indeg !! v) as [d|] eqn:Hv.
    - exists d. split; [done|]. by destruct (Hsome v d Hv) as (_ & _ & _ & ->).
    - exfalso. destruct Hwf as (_ & _ & Hends).
      destruct (Hends u v Huv) as [_ Hvn]. apply (Hdisj' u Hu).
      eapply Hpred; [done|]. by apply Hnone. }
  apply visit_children_order in Hrun.
  - simpl in Hrun. subst zero'. unfold freed_by. apply filter_ext_elem.
    intros v Hv. apply (proj1 (elem_of_last_mentions _ _)) in Hv.
    destruct (Hchild v Hv) as (d & Hd & ->). rewrite Hd.
    specialize (Hocc v). specialize (Hsplit v).
    split; [intros [= H]; lia | intros H; f_equal; lia].
  - intros v d Hv. by destruct (Hsome v d Hv) as (_ & _ & ? & _).
  - intros v Hv. destruct (Hchild v Hv) as (d & Hd & ->).
    eexists. split; [done|].
    specialize (Hocc v). specialize (Hsplit v). lia.
Qed.

Lemma generations_loop_nil fuel indeg :
  generations_loop fuel G indeg []
  = Some ([], if decide (indeg = ∅) then None else Some unfeasible).
Proof. by destruct fuel. Qed.

(** What the loop returns, when it returns: the generations yielded make
    up the final [done], the first of them is the [zero] it started
    with, and the exception is decided by the final in-degree map. *)
Lemma generations_loop_spec fuel :
  forall done zero indeg gens e,
    loop_invariant G done zero indeg ->
    generations_loop fuel G indeg zero = Some (gens, e) ->
    exists indeg_final,
      loop_invariant G (done ++ concat gens) [] indeg_final
      /\ e = (if decide (indeg_final = ∅) then None else Some unfeasible)
      /\ exists rest, concat gens = zero ++ rest.
Proof.
  induction fuel as [|fuel IH]; intros done zero indeg gens e Hinv Hrun.
  - destruct zero as [|z zero]; [|done]. simpl in Hrun.
    injection Hrun as <- <-. exists indeg. simpl. rewrite app_nil_r.
    split; [done|]. split; [done|]. by exists [].
  - destruct zero as [|z zero].
    { simpl in Hrun. injection Hrun as <- <-. exists indeg. simpl.
      rewrite app_nil_r. split; [done|]. split; [done|]. by exists []. }
    destruct (generation_step done (z :: zero) indeg Hinv)
      as (indeg' & zero' & Hstep & Hinv').
    cbn [generations_loop] in Hrun. rewrite Hstep in Hrun.
    destruct (generations_loop fuel G indeg' zero') as [[gens' e']|] eqn:Hrec;
      [|done].
    injection Hrun as <- <-.
    destruct (IH _ _ _ _ _ Hinv' Hrec) as (indeg_final & Hfin & He & _).
    exists indeg_final. split; [|split; [done|]].
    + replace (done ++ concat ((z :: zero) :: gens'))
        with ((done ++ z :: zero) ++ concat gens'); [done|].
      by rewrite <- app_assoc.
    + by exists (concat gens').
Qed.

(** The generations the loop yields follow one another as [freed_by]
    tells. *)
Lemma generations_loop_order fuel :
  forall done zero indeg gens e,
    loop_invariant G done zero indeg ->
    generations_loop fuel G indeg zero = Some (gens, e) ->
    generations_from G done zero gens.
Proof.
  induction fuel as [|fuel IH]; intros done zero indeg gens e Hinv Hrun.
  - destruct zero as [|z zero]; [|done]. simpl in Hrun.
    injection Hrun as <- <-. constructor.
  - destruct zero as [|z zero].
    { simpl in Hrun. injection Hrun as <- <-. constructor. }
    destruct (generation_step done (z :: zero) indeg Hinv)
      as (indeg' & zero' & Hstep & Hinv').
    cbn [generations_loop] in Hrun. rewrite Hstep in Hrun.
    destruct (generations_loop fuel G indeg' zero') as [[gens' e']|] eqn:Hrec;
      [|done].
    injection Hrun as <- <-. constructor; [done|].
    rewrite <- (generation_step_order _ _ _ _ _ Hinv Hstep).
    by eapply IH.
Qed.

End Generations.

Section Termination.

Import DiGraph Topo.

Variable G : DiGraph.t.

Lemma map_size_lookup_Some (m : gmap string Z) k d :
  m !! k = Some d -> size m = Datatypes.S (size (delete k m)).
Proof.
  intros Hk. rewrite <- (insert_id m k d Hk) at 1.
  rewrite <- insert_delete_eq. apply map_size_insert_None, lookup_delete_eq.
Qed.

Lemma visit_children_size C :
  forall indeg z indeg' z',
    for_each visit_child (indeg, z) C = Ok (indeg', z') ->
    (size indeg' + length z' = size indeg + length z)%nat.
Proof.
  induction C as [|x C IH]; intros indeg z indeg' z' Hrun; simpl in Hrun.
  - by injection Hrun as <- <-.
  - destruct (indeg !! x) as [d|] eqn:Hx; [|done].
    destruct (d - 1 =? 0).
    + apply IH in Hrun. rewrite length_app in Hrun. simpl in Hrun.
      rewrite (map_size_lookup_Some indeg x d Hx). lia.
    + apply IH in Hrun. by rewrite map_size_insert_Some in Hrun.
Qed.

Lemma visit_nodes_size zero :
  forall indeg z indeg' z',
    for_each (visit_node G) (indeg, z) zero = Ok (indeg', z') ->
    (size indeg' + length z' = size indeg + length z)%nat.
Proof.
  induction zero as [|n zero IH]; intros indeg z indeg' z' Hrun; simpl in Hrun.
  - by injection Hrun as <- <-.
  - unfold visit_node at 1 in Hrun.
    destruct (decide (n ∈ nodes G)); [|done].
    destruct (for_each visit_child (indeg, z) (neighbors G n))
      as [[indeg1 z1]|] eqn:Hn; [|done].
    apply visit_children_size in Hn. apply IH in Hrun. lia.
Qed.

(** Every iteration but the last empties the in-degree map a little. *)
Lemma generations_loop_total fuel :
  forall indeg zero,
    (size indeg + 1 <= fuel)%nat ->
    is_Some (generations_loop fuel G indeg zero).
Proof.
  induction fuel as [|fuel IH]; intros indeg zero Hfuel; [lia|].
  destruct zero as [|z zero]; [done|]. cbn [generations_loop].
  destruct (for_each (visit_node G) (indeg, []) (z :: zero))
    as [[indeg' zero']|] eqn:Hstep; [|done].
  apply visit_nodes_size in Hstep. simpl in Hstep.
  destruct zero' as [|z' zero'].
  - by rewrite (generations_loop_nil G).
  - destruct (IH indeg' (z' :: zero')) as [[gens e] ->]; [|done].
    simpl in Hstep. lia.
Qed.

Lemma initial_indegree_map_size :
  (size (initial_indegree_map G) <= length (nodes G))%nat.
Proof.
  unfold initial_indegree_map.
  assert (H : forall l (m : gmap string Z),
            (size (foldl (fun m v => if (0 <? in_degree G v)%Z
                                     then <[v := in_degree G v]> m else m) m l)
             <= size m + length l)%nat).
  { induction l as [|x l IH]; intros m; cbn [foldl length]; [lia|].
    etrans; [apply IH|]. destruct (0 <? in_degree G x); [|lia].
    rewrite map_size_insert. destruct (m !! x); simpl; lia. }
  etrans; [apply H|]. rewrite map_size_empty. lia.
Qed.

Lemma topological_generations_total : is_Some (topological_generations G).
Proof.
  apply generations_loop_total.
  pose proof initial_indegree_map_size. simpl. lia.
Qed.

End Termination.

Section TopologicalSort.

Import DiGraph Topo.

Variable G : DiGraph.t.
Hypothesis Hwf : well_formed G.

(** The sort of a well-formed graph: it returns; what it yields is a
    sequence of nodes without repetition, every yielded node after all
    its predecessors, the nodes of in-degree zero first in node order;
    it ends normally with all the nodes yielded, or with
    [NetworkXUnfeasible], and then the graph has a cycle. *)
Lemma topological_sort_spec :
  exists order e,
    topological_sort G = Some (order, e)
    /\ NoDup order
    /\ (forall v, v ∈ order -> v ∈ nodes G)
    /\ (forall u v, edge G u v -> v ∈ order -> precedes order u v)
    /\ (exists rest, order = initial_zero_indegree G ++ rest)
    /\ ((e = None /\ order ≡ₚ nodes G)
        \/ (e = Some unfeasible /\ ~ acyclic G)).
Proof.
  destruct (topological_generations_total G) as [[gens e] Hrun].
  unfold topological_sort. rewrite Hrun. exists (concat gens), e.
  split; [done|]. unfold topological_generations in Hrun.
  destruct (generations_loop_spec G Hwf _ _ _ _ _ _ (initial_invariant G Hwf) Hrun)
    as (indeg & [Hnd Hnodes Hnone Hsome _ Horder] & He & Hrest).
  simpl in *. rewrite app_nil_r in *.
  split; [done|]. split; [done|]. split; [done|]. split; [done|].
  destruct (decide (indeg = ∅)) as [->|Hne].
  - left. split; [done|]. destruct Hwf as (HndG & _ & _).
    apply NoDup_Permutation; [done..|]. intros v. split; [apply Hnodes|].
    intros Hv. apply Hnone; [done | apply lookup_empty].
  - right. split; [done|]. unfold acyclic.
    apply (closed_set_has_cycle (edge G)
             (filter (fun v => is_Some (indeg !! v)) (nodes G))).
    + apply map_choose in Hne as (v & d & Hv).
      destruct (Hsome v d Hv) as (Hvn & _).
      intros Hnil.
      assert (Hin : v ∈ filter (fun v => is_Some (indeg !! v)) (nodes G))
        by (apply list_elem_of_filter; eauto).
      rewrite Hnil in Hin. by apply elem_of_nil in Hin.
    + intros v [[d Hv] Hvn]%list_elem_of_filter.
      destruct (Hsome v d Hv) as (_ & _ & Hpos & Hd).
      destruct (pending_pos G (concat gens) v) as (u & Huv & Hu); [lia|].
      exists u. split; [|done]. apply list_elem_of_filter.
      destruct Hwf as (_ & _ & Hends). destruct (Hends u v Huv) as [Hun _].
      split; [|done]. destruct (indeg !! u) eqn:E; [done|].
      exfalso. by apply Hu, Hnone.
Qed.

(** What the sort yields is the generations one after the other. *)
Lemma topological_sort_generations order e :
  topological_sort G = Some (order, e) ->
  exists gens, order = concat gens
               /\ generations_from G [] (first_generation G) gens.
Proof.
  unfold topological_sort, topological_generations.
  destruct (generations_loop _ _ _ _) as [[gens e']|] eqn:Hrun; [|done].
  intros [= <- <-]. exists gens. split; [done|].
  change (first_generation G) with (initial_zero_indegree G).
  exact (generations_loop_order G Hwf _ _ _ _ _ _ (initial_invariant G Hwf) Hrun).
Qed.

(** Without a cycle the sort yields all the nodes, each after its
    predecessors. *)
Lemma topological_sort_acyclic :
  acyclic G ->
  exists order,
    topological_sort G = Some (order, None)
    /\ order ≡ₚ nodes G
    /\ (forall u v, edge G u v -> precedes order u v)
    /\ exists rest, order = initial_zero_indegree G ++ rest.
Proof.
  intros Hacyc.
  destruct topological_sort_spec
    as (order & e & Hrun & Hnd & Hnodes & Hord & Hrest & [[-> Hperm]|[_ Hn]]);
    [|done].
  exists order. split; [done|]. split; [done|]. split; [|done].
  intros u v Huv. apply Hord; [done|]. rewrite Hperm.
  destruct Hwf as (_ & _ & Hends). by destruct (Hends u v Huv).
Qed.

(** With a cycle it ends in [NetworkXUnfeasible]. *)
Lemma topological_sort_cyclic v :
  tc (edge G) v v ->
  exists partial, topological_sort G = Some (partial, Some unfeasible).
Proof.
  intros Hcyc.
  destruct topological_sort_spec
    as (order & e & Hrun & Hnd & Hnodes & Hord & Hrest & [[-> Hperm]|[-> _]]);
    [|by exists order].
  exfalso. apply (ordered_no_cycle (edge G) order Hnd) with (v := v); [|done].
  intros a b Hab. apply Hord; [done|]. rewrite Hperm.
  destruct Hwf as (_ & _ & Hends). by destruct (Hends a b Hab).
Qed.

End TopologicalSort.

(** ** The load order *)

Lemma runs_forward_acyclic (G : DiGraph.t) (l : list string) :
  NoDup l -> runs_forward l (DiGraph.edges G) = true -> acyclic G.
Proof.
  intros Hnd Hrun. unfold acyclic.
  apply (ordered_no_cycle (edge G) l Hnd).
  intros u v Huv. unfold runs_forward in Hrun.
  rewrite forallb_forall in Hrun.
  specialize (Hrun (u, v)). rewrite <- list_elem_of_In in Hrun.
  specialize (Hrun Huv). simpl in Hrun.
  destruct (list_find (fun x => x = u) l) as [[i x]|] eqn:Hi; [|done].
  destruct (list_find (fun x => x = v) l) as [[j y]|] eqn:Hj; [|done].
  apply list_find_Some in Hi as (Hi & -> & _).
  apply list_find_Some in Hj as (Hj & -> & _).
  exists i, j. split; [done|]. split; [done|]. by apply Nat.ltb_lt.
Qed.

Lemma sorted_acyclic mods :
  acyclic (Sort.build mods) ->
  exists order,
    Sort.sorted mods = Some (Ok order)
    /\ order ≡ₚ DiGraph.nodes (Sort.build mods)
    /\ (forall u v, edge (Sort.build mods) u v -> precedes order u v)
    /\ exists rest, order = Topo.initial_zero_indegree (Sort.build mods) ++ rest.
Proof.
  intros Hacyc.
  destruct (topological_sort_acyclic _ (build_well_formed mods) Hacyc)
    as (order & Hrun & Hrest).
  exists order. split; [|done]. unfold Sort.sorted. by rewrite Hrun.
Qed.

Lemma sorted_cyclic mods v :
  tc (edge (Sort.build mods)) v v ->
  Sort.sorted mods = Some (Raise Topo.unfeasible).
Proof.
  intros Hcyc.
  destruct (topological_sort_cyclic _ (build_well_formed mods) v Hcyc)
    as (partial & Hrun).
  unfold Sort.sorted. by rewrite Hrun.
Qed.

Lemma sorted_ok mods order :
  Sort.sorted mods = Some (Ok order) ->
  NoDup order
  /\ order ≡ₚ DiGraph.nodes (Sort.build mods)
  /\ (forall u v, edge (Sort.build mods) u v -> precedes order u v)
  /\ exists rest, order = Topo.initial_zero_indegree (Sort.build mods) ++ rest.
Proof.
  intros Hs.
  destruct (topological_sort_spec _ (build_well_formed mods))
    as (order' & e & Hrun & Hnd & Hnodes & Hord & Hrest & Hcase).
  unfold Sort.sorted in Hs. rewrite Hrun in Hs. simpl in Hs.
  destruct Hcase as [[-> Hperm]|[-> _]]; [|done].
  injection Hs as <-. split; [done|]. split; [done|]. split; [|done].
  intros u v Huv. apply Hord; [done|]. rewrite Hperm.
  destruct (build_well_formed mods) as (_ & _ & Hends).
  by destruct (Hends u v Huv).
Qed.

Lemma sorted_generations mods order :
  Sort.sorted mods = Some (Ok order) ->
  exists gens, order = concat gens
               /\ generations_from (Sort.build mods) []
                                   (first_generation (Sort.build mods)) gens.
Proof.
  unfold Sort.sorted.
  destruct (Topo.topological_sort (Sort.build mods)) as [[order' e]|] eqn:Hrun;
    [|done].
  destruct e; [done|]. intros [= <-].
  exact (topological_sort_generations _ (build_well_formed mods) _ _ Hrun).
Qed.

(** C1.  When the graph built from a collection has no cycle, the sort
    returns a sequence that holds every node of the graph exactly once
    (a permutation of the nodes), and for every edge from [u] to [v] of
    the graph, [u] stands before [v] in it. *)
Theorem C1_topological_validity (mods : list Mod.t) :
  acyclic (Sort.build mods) ->
  exists order,
    Sort.sorted mods = Some (Ok order)
    /\ order ≡ₚ DiGraph.nodes (Sort.build mods)
    /\ forall u v, edge (Sort.build mods) u v -> precedes order u v.
Proof.
  intros Hacyc.
  destruct (sorted_acyclic mods Hacyc) as (order & Hs & Hperm & Hord & _).
  by exists order.
Qed.

Lemma C1_topological_validity_witness :
  let mods := [ordering_mod "A" ["B"] []; ordering_mod "B" [] [];
               ordering_mod "C" [] ["A"]] in
  acyclic (Sort.build mods)
  /\ exists order,
      Sort.sorted mods = Some (Ok order)
      /\ order ≡ₚ DiGraph.nodes (Sort.build mods)
      /\ forall u v, edge (Sort.build mods) u v -> precedes order u v.
Proof.
  intros mods.
  assert (H : acyclic (Sort.build mods)).
  { apply (runs_forward_acyclic _ ["A"; "B"; "C"]);
      [compute_done | vm_compute; reflexivity]. }
  split; [exact H | exact (C1_topological_validity mods H)].
Defined.

(** C2, as the code has it.  When the built graph has a cycle, the sort
    ends with the graph library's [NetworkXUnfeasible] exception.  The
    exception is the same value for every such collection: it holds a
    fixed message and names no package id. *)
Theorem C2_cycle_raises_unfeasible (mods : list Mod.t) (v : string) :
  tc (edge (Sort.build mods)) v v ->
  Sort.sorted mods = Some (Raise Topo.unfeasible)
  /\ Sort.graph mods = Some (["topological sort:"], Some Topo.unfeasible).
Proof.
  intros Hcyc. pose proof (sorted_cyclic mods v Hcyc) as Hs.
  split; [done|]. unfold Sort.graph. by rewrite Hs.
Qed.

Lemma C2_cycle_raises_unfeasible_witness :
  let mods := [ordering_mod "A" ["B"] []; ordering_mod "B" ["A"] []] in
  tc (edge (Sort.build mods)) "A" "A"
  /\ Sort.sorted mods = Some (Raise Topo.unfeasible).
Proof.
  intros mods.
  assert (H : tc (edge (Sort.build mods)) "A" "A").
  { apply tc_l with "B"; [|apply tc_once]; unfold edge; compute_done. }
  split; [exact H | exact (proj1 (C2_cycle_raises_unfeasible mods "A" H))].
Defined.

(** C2 as stated fails: for the collection in which [A] is before [B]
    and [B] before [A], both ids are on a cycle, and the exception that
    ends the sort carries neither of them. *)
Lemma C2_cycle_error_names_no_node :
  let mods := [ordering_mod "A" ["B"] []; ordering_mod "B" ["A"] []] in
  edge (Sort.build mods) "A" "B" /\ edge (Sort.build mods) "B" "A"
  /\ Sort.sorted mods = Some (Raise Topo.unfeasible)
  /\ ("A" ∉ exn_args Topo.unfeasible) /\ ("B" ∉ exn_args Topo.unfeasible).
Proof.
  intros mods. unfold edge.
  split; [compute_done|]. split; [compute_done|].
  split; [by vm_compute|]. split; compute_done.
Qed.

(** C3, as the code has it.  The order is a function of the collection.
    Every node is chosen when none of its predecessors is unresolved: in
    the returned sequence, each node is a node not yet chosen whose
    predecessors all stand before it.  Which of such nodes comes next
    does not follow the order of the collection; it is fixed as follows.
    The sequence is made of generations.  The first is the
    nodes without predecessors, in the order in which they entered the
    graph.  Each following one is the nodes set free by the generation
    before it: the successors of its nodes, taken node by node in the
    order of that generation and for each node in the order of its
    edges, each successor at the place of its last mention, that have no
    predecessor outside the generations so far.  The sequence ends with
    the first generation that sets no node free. *)
Theorem C3_order_of_choice (mods : list Mod.t) (order : list string) :
  Sort.sorted mods = Some (Ok order) ->
  (forall pre x post, order = pre ++ x :: post ->
                      available (Sort.build mods) pre x)
  /\ exists gens,
      order = concat gens
      /\ generations_from (Sort.build mods) []
                          (first_generation (Sort.build mods)) gens.
Proof.
  intros Hs. destruct (sorted_ok mods order Hs) as (Hnd & Hperm & Hord & _).
  split; [|by apply sorted_generations]. intros pre x post ->. split; [|split].
  - rewrite <- Hperm. rewrite elem_of_app. right. left.
  - apply NoDup_app in Hnd as (_ & Hdisj & _). intros Hx.
    apply (Hdisj x Hx). left.
  - intros u Hux. eapply precedes_split; [done|]. by apply Hord.
Qed.

Lemma C3_order_of_choice_witness :
  let mods := [ordering_mod "A" ["R"] []; ordering_mod "B" ["Q"] [];
               ordering_mod "P" [] ["A"]; ordering_mod "R" [] [];
               ordering_mod "Q" [] []] in
  Sort.sorted mods = Some (Ok ["A"; "B"; "R"; "P"; "Q"])
  /\ DiGraph.nodes (Sort.build mods) = ["A"; "R"; "B"; "Q"; "P"]
  /\ first_generation (Sort.build mods) = ["A"; "B"]
  /\ freed_by (Sort.build mods) [] ["A"; "B"] = ["R"; "P"; "Q"]
  /\ available (Sort.build mods) ["A"; "B"] "R"
  /\ exists gens,
      ["A"; "B"; "R"; "P"; "Q"] = concat gens
      /\ generations_from (Sort.build mods) []
                          (first_generation (Sort.build mods)) gens.
Proof.
  intros mods.
  assert (H : Sort.sorted mods = Some (Ok ["A"; "B"; "R"; "P"; "Q"]))
    by (vm_compute; reflexivity).
  destruct (C3_order_of_choice mods _ H) as [Hav Hgens].
  split; [exact H|]. split; [vm_compute; reflexivity|].
  split; [vm_compute; reflexivity|]. split; [vm_compute; reflexivity|].
  split; [|exact Hgens].
  exact (Hav ["A"; "B"] "R" ["P"; "Q"] eq_refl).
Defined.

(** C3 as stated fails.  In the collection [A], [B] (after [D]), [C]
    (before [A]), [D] the sort returns [D], [C], [B], [A]: at the first
    step [C] and [D] both have no unresolved predecessor, [C] is the
    earlier of the two in the collection, and [D] is chosen. *)
Lemma C3_tie_not_broken_by_collection_order :
  let mods := [ordering_mod "A" [] []; ordering_mod "B" [] ["D"];
               ordering_mod "C" ["A"] []; ordering_mod "D" [] []] in
  Sort.sorted mods = Some (Ok ([] ++ "D" :: ["C"; "B"; "A"]))
  /\ available (Sort.build mods) [] "C"
  /\ available (Sort.build mods) [] "D"
  /\ position mods "C" = Some 2%nat
  /\ position mods "D" = Some 3%nat.
Proof.
  intros mods.
  assert (E : DiGraph.edges (Sort.build mods) = [("D", "B"); ("C", "A")])
    by (vm_compute; reflexivity).
  split; [by vm_compute|].
  split; [|split; [|split; by vm_compute]].
  - split; [compute_done|]. split; [apply not_elem_of_nil|].
    intros u. unfold edge. rewrite E, !elem_of_cons, elem_of_nil.
    intros [?|[?|[]]]; simplify_eq.
  - split; [compute_done|]. split; [apply not_elem_of_nil|].
    intros u. unfold edge. rewrite E, !elem_of_cons, elem_of_nil.
    intros [?|[?|[]]]; simplify_eq.
Qed.

(** ** The codecs on the inputs where they leave their contract *)

(** C6 on the code.  [ModListV2Format.parse] catches [ValueError] only:
    on a line with too few fields the subscript raises [IndexError],
    which ends the generator; the lines after it are never read and no
    diagnostic is printed.  Given a string, its loop runs over the
    characters, so the first character already is such a line.  A line
    with a bad steam id is skipped without a diagnostic.
    [ModListV3Format.parse] lets the reader's error escape on a carriage
    return inside a row. *)
Theorem C6_v2_parse_raises_on_short_line :
  ModListV2Format.parse (Lines ["a::1::u"; "b::2"; "c::3::w"])
  = Run [Mod.make "a" (Some 1) (Some "u")] [] (Some IndexError)
  /\ ModListV2Format.parse (Text "a::1::u")
     = Run [] [] (Some IndexError)
  /\ ModListV2Format.parse (Lines ["a::1::u"; "b::x::v"; "c::3::w"])
     = Run [Mod.make "a" (Some 1) (Some "u"); Mod.make "c" (Some 3) (Some "w")]
           [] None
  /\ raised (ModListV3Format.parse
               (Text ("a" +:+ String "013" "b,2,v")))
     = Some (CsvError "new-line character seen in unquoted field - do you need to open the file in universal-newline mode?").
Proof. repeat split; by vm_compute. Qed.

(** C8 on the code.  The conditions [if not None] of the two [format]
    functions are always true, so a missing field is never replaced by
    the empty string: a missing steam id is written as the word [None]
    by both codecs, and a missing repo url makes the V2 [format] raise
    [TypeError] (V3 leaves the field empty only because the csv writer
    writes [None] as nothing). *)
Theorem C8_missing_field_written_as_None :
  ModListV3Format.serialize [Mod.make "a" None None] = (["a,None,"], None)
  /\ ModListV2Format.serialize [Mod.make "a" None (Some "u")]
     = (["a::None::u"], None)
  /\ ModListV2Format.format (Mod.make "a" (Some 1) None) = Raise TypeError.
Proof. repeat split; by vm_compute. Qed.

(** ** More on the graph and the sort *)

(** The built graph holds every node and every edge once, and its nodes
    are exactly the ends of its edges: a record that is the end of no
    edge is not in the graph, so it is not in the printed order. *)
Theorem build_graph_shape (mods : list Mod.t) :
  NoDup (DiGraph.nodes (Sort.build mods))
  /\ NoDup (DiGraph.edges (Sort.build mods))
  /\ forall x, x ∈ DiGraph.nodes (Sort.build mods)
               <-> exists u v, edge (Sort.build mods) u v /\ (x = u \/ x = v).
Proof.
  destruct (build_well_formed mods) as (Hn & He & Hends).
  split; [done|]. split; [done|]. intros x. split.
  - apply build_nodes_are_ends.
  - intros (u & v & Huv & [->| ->]); by destruct (Hends u v Huv).
Qed.

(** The sort of a built graph ends in one of two ways and in no other:
    it returns an order exactly when the graph has no cycle, and raises
    [NetworkXUnfeasible] exactly when it has one.  It never raises the
    library's [RuntimeError] and never runs out of iterations. *)
Theorem sorted_outcome (mods : list Mod.t) :
  ((exists order, Sort.sorted mods = Some (Ok order))
   <-> acyclic (Sort.build mods))
  /\ (Sort.sorted mods = Some (Raise Topo.unfeasible)
      <-> ~ acyclic (Sort.build mods)).
Proof.
  destruct (topological_sort_spec _ (build_well_formed mods))
    as (order & e & Hrun & Hnd & Hnodes & Hord & Hrest & Hcase).
  unfold Sort.sorted. rewrite Hrun. simpl.
  destruct Hcase as [[-> Hperm]|[-> Hcyc]]; simpl.
  - assert (Hacyc : acyclic (Sort.build mods)).
    { unfold acyclic. apply (ordered_no_cycle _ order Hnd).
      intros u v Huv. apply Hord; [done|]. rewrite Hperm.
      destruct (build_well_formed mods) as (_ & _ & Hends).
      by destruct (Hends u v Huv). }
    split; split; [done | by exists order | done | done].
  - split; split; [|done|done|done]. by intros (o & [=]).
Qed.

(** The generation loop of the sort ends within its bound of iterations
    on every graph value, built by [add_edge] or not. *)
Theorem topological_sort_terminates (G : DiGraph.t) :
  is_Some (Topo.topological_sort G).
Proof.
  destruct (topological_generations_total G) as [[gens e] H].
  unfold Topo.topological_sort. by rewrite H.
Qed.

Section GraphReads.

Lemma foldl_pointwise {A S} (f g : S -> A -> S) l :
  (forall s x, x ∈ l -> f s x = g s x) -> forall s, foldl f s l = foldl g s l.
Proof.
  induction l as [|x l IH]; intros Hfg s; [done|]. simpl.
  rewrite Hfg by left. apply IH. intros s' y Hy. apply Hfg. by right.
Qed.

Lemma visit_mod_agree mods mods' m m' G :
  ordering_view m = ordering_view m' ->
  (forall x, x ∉ Sort.ignore -> py_in (PStr x) mods = py_in (PStr x) mods') ->
  Sort.visit_mod mods G m = Sort.visit_mod mods' G m'.
Proof.
  unfold ordering_view. intros [= Hp Hb Ha] Hin. unfold Sort.visit_mod.
  rewrite !if_truthy_for_foldl, <- Hb, <- Ha.
  assert (Hstep : forall (x : string) (k1 k2 : bool),
            (x ∉ Sort.ignore -> k1 = k2) ->
            forall (c : bool) (D D' : DiGraph.t),
              (if k1 then if negb (Sort.in_ignore x) && c then D' else D else D)
              = (if k2 then if negb (Sort.in_ignore x) && c then D' else D else D)).
  { intros x k1 k2 Hk c D D'. destruct (Sort.in_ignore x) eqn:E.
    - simpl. by destruct k1, k2.
    - apply in_ignore_false in E. by rewrite Hk. }
  rewrite (foldl_pointwise (Sort.visit_after mods m) (Sort.visit_after mods' m')).
  2:{ intros D a _. unfold Sort.visit_after. rewrite <- Hp.
      apply Hstep, Hin. }
  apply foldl_pointwise. intros D b _. unfold Sort.visit_before.
  rewrite <- Hp. apply Hstep, Hin.
Qed.

Lemma py_in_view mods mods' x :
  ordering_view <$> mods = ordering_view <$> mods' ->
  py_in (PStr x) mods = py_in (PStr x) mods'.
Proof.
  revert mods'. induction mods as [|m mods IH]; intros [|m' mods'] H;
    try done.
  pose proof (f_equal head H) as Hm. pose proof (f_equal tail H) as Hrest.
  simpl in Hm, Hrest. unfold py_in in *. simpl.
  rewrite (IH mods' Hrest). f_equal.
  unfold ordering_view in Hm. injection Hm as Hp _ _.
  unfold py_eq. simpl. by rewrite Hp.
Qed.

Lemma build_agree mods mods' :
  ordering_view <$> mods = ordering_view <$> mods' ->
  Sort.build mods = Sort.build mods'.
Proof.
  intros Hview. unfold Sort.build.
  assert (H : forall ms ms' G,
            ordering_view <$> ms = ordering_view <$> ms' ->
            foldl (Sort.visit_mod mods) G ms = foldl (Sort.visit_mod mods') G ms').
  { induction ms as [|m ms IH]; intros [|m' ms'] G Hms; try done.
    pose proof (f_equal head Hms) as Hm. pose proof (f_equal tail Hms) as Hrest.
    simpl in Hm, Hrest. apply (inj Some) in Hm. simpl.
    rewrite (visit_mod_agree mods mods' m m' G Hm); [by apply IH|].
    intros x _. by apply py_in_view. }
  by apply H.
Qed.

Lemma visit_mod_ignored mods m G :
  Mod.packageid m ∈ Sort.ignore -> Sort.visit_mod mods G m = G.
Proof.
  intros Hig. unfold Sort.visit_mod. rewrite !if_truthy_for_foldl.
  assert (Hi : Sort.in_ignore (Mod.packageid m) = true)
    by by apply bool_decide_eq_true.
  assert (Ha : forall l D, foldl (Sort.visit_after mods m) D l = D).
  { induction l as [|a l IH]; intros D; [done|]. simpl.
    unfold Sort.visit_after at 2. rewrite Hi, andb_false_r.
    rewrite IH. by destruct (py_in (PStr a) mods). }
  assert (Hb : forall l D, foldl (Sort.visit_before mods m) D l = D).
  { induction l as [|a l IH]; intros D; [done|]. simpl.
    unfold Sort.visit_before at 2. rewrite Hi, andb_false_r.
    rewrite IH. by destruct (py_in (PStr a) mods). }
  by rewrite Ha, Hb.
Qed.

Lemma py_in_remove mods1 m mods2 x :
  x <> Mod.packageid m ->
  py_in (PStr x) (mods1 ++ m :: mods2) = py_in (PStr x) (mods1 ++ mods2).
Proof.
  intros Hne. unfold py_in. rewrite !existsb_app. simpl.
  replace (py_eq (PMod m) (PStr x)) with false; [done|].
  symmetry. apply not_true_iff_false. rewrite py_eq_mod_str. congruence.
Qed.

Lemma build_remove_ignored mods1 m mods2 :
  Mod.packageid m ∈ Sort.ignore ->
  Sort.build (mods1 ++ m :: mods2) = Sort.build (mods1 ++ mods2).
Proof.
  intros Hig. unfold Sort.build.
  assert (Hagree : forall ms G,
            foldl (Sort.visit_mod (mods1 ++ m :: mods2)) G ms
            = foldl (Sort.visit_mod (mods1 ++ mods2)) G ms).
  { intros ms G. apply foldl_pointwise. intros D m' _.
    apply visit_mod_agree; [done|]. intros x Hx. apply py_in_remove.
    intros ->. done. }
  rewrite !foldl_app. simpl. rewrite visit_mod_ignored by done.
  by rewrite !Hagree.
Qed.

End GraphReads.

(** The graph, and with it the order, depends on the package ids and
    the [before] and [after] lists of the records and on nothing else:
    [incompatible], [ignored], the steam id and the other fields never
    reach it. *)
Theorem graph_reads_ordering_fields_only (mods mods' : list Mod.t) :
  ordering_view <$> mods = ordering_view <$> mods' ->
  Sort.build mods = Sort.build mods' /\ Sort.graph mods = Sort.graph mods'.
Proof.
  intros H. apply build_agree in H. unfold Sort.graph, Sort.sorted.
  by rewrite H.
Qed.

Lemma graph_reads_ordering_fields_only_witness :
  let m := ordering_mod "A" ["B"] [] in
  let m' := set_ignored true m in
  Sort.build [m; ordering_mod "B" [] []]
  = Sort.build [m'; ordering_mod "B" [] []].
Proof.
  intros m m'.
  exact (proj1 (graph_reads_ordering_fields_only
                  [m; ordering_mod "B" [] []] [m'; ordering_mod "B" [] []]
                  eq_refl)).
Defined.

(** Ignore-list neutrality.  Taking a record whose package id is in the
    ignore list out of a collection, whatever it declares and whatever
    refers to it, changes neither the built graph nor what [Sort.graph]
    prints. *)
Theorem ignore_list_neutral (mods1 mods2 : list Mod.t) (m : Mod.t) :
  Mod.packageid m ∈ Sort.ignore ->
  Sort.build (mods1 ++ m :: mods2) = Sort.build (mods1 ++ mods2)
  /\ Sort.graph (mods1 ++ m :: mods2) = Sort.graph (mods1 ++ mods2).
Proof.
  intros H. apply (build_remove_ignored mods1 m mods2) in H.
  unfold Sort.graph, Sort.sorted. by rewrite H.
Qed.

Lemma ignore_list_neutral_witness :
  let h := ordering_mod "brrainz.harmony" ["A"] ["B"] in
  let a := ordering_mod "A" ["B"] ["brrainz.harmony"] in
  let b := ordering_mod "B" [] [] in
  Sort.graph ([a] ++ h :: [b]) = Sort.graph ([a] ++ [b]).
Proof.
  intros h a b.
  refine (proj2 (ignore_list_neutral [a] [b] h _)). compute_done.
Defined.

(** A record that names itself in [before] or [after] (and is not in
    the ignore list) makes every sort of its collection fail. *)
Theorem self_reference_is_a_cycle (mods : list Mod.t) (m : Mod.t) :
  m ∈ mods ->
  Mod.packageid m ∉ Sort.ignore ->
  Mod.packageid m ∈ default [] (Mod.before m) ++ default [] (Mod.after m) ->
  Sort.sorted mods = Some (Raise Topo.unfeasible).
Proof.
  intros Hm Hig Hself. apply (sorted_cyclic mods (Mod.packageid m)).
  apply tc_once. unfold edge. apply build_edges. exists m. split; [done|].
  assert (Hadm : admitted mods m (Mod.packageid m))
    by (split; [by exists m | done]).
  apply elem_of_app in Hself as [Hb|Ha].
  - right. by exists (Mod.packageid m).
  - left. by exists (Mod.packageid m).
Qed.

Lemma self_reference_is_a_cycle_witness :
  Sort.sorted [ordering_mod "A" ["A"] []] = Some (Raise Topo.unfeasible).
Proof.
  apply (self_reference_is_a_cycle _ (ordering_mod "A" ["A"] []));
    [left | compute_done | compute_done].
Defined.

(** ** Strings *)

Section StrFacts.

Import Str.

Implicit Types (s t u : string) (c : ascii).

Lemma str_app_cons c s t : String c s +:+ t = String c (s +:+ t).
Proof. reflexivity. Qed.

Lemma str_app_nil_l s : EmptyString +:+ s = s.
Proof. reflexivity. Qed.

Lemma str_app_nil_r s : s +:+ EmptyString = s.
Proof. induction s as [|c s IH]; [done|]. by rewrite str_app_cons, IH. Qed.

Lemma str_app_assoc s t u : (s +:+ t) +:+ u = s +:+ (t +:+ u).
Proof. induction s as [|c s IH]; [done|]. by rewrite !str_app_cons, IH. Qed.

Lemma str_length_app s t :
  String.length (s +:+ t) = (String.length s + String.length t)%nat.
Proof. induction s as [|c s IH]; [done|]. rewrite str_app_cons. simpl. by rewrite IH. Qed.

Lemma any_char_app p s t : any_char p (s +:+ t) = any_char p s || any_char p t.
Proof.
  induction s as [|c s IH]; [done|]. rewrite str_app_cons. simpl.
  by rewrite IH, orb_assoc.
Qed.

Lemma free_of_app bad s t : free_of bad (s +:+ t) <-> free_of bad s /\ free_of bad t.
Proof. unfold free_of. rewrite any_char_app. apply orb_false_iff. Qed.

Lemma free_of_cons bad c s :
  free_of bad (String c s) <-> bad c = false /\ free_of bad s.
Proof. unfold free_of. simpl. apply orb_false_iff. Qed.

Lemma free_of_weaken (bad bad' : ascii -> bool) s :
  (forall c, bad' c = true -> bad c = true) -> free_of bad s -> free_of bad' s.
Proof.
  intros Himp. induction s as [|c s IH]; [done|].
  rewrite !free_of_cons. intros [Hc Hs]. split; [|by apply IH].
  destruct (bad' c) eqn:E; [|done]. apply Himp in E. congruence.
Qed.

(** *** [split] *)

Lemma prefix_app sep rest : String.prefix sep (sep +:+ rest) = true.
Proof.
  induction sep as [|c sep IH]; [by destruct rest|].
  rewrite str_app_cons. simpl. by destruct (ascii_dec c c).
Qed.

Lemma prefix_head_ne c0 sep c s :
  c <> c0 -> String.prefix (String c0 sep) (String c s) = false.
Proof. intros Hne. simpl. destruct (ascii_dec c0 c); [congruence | done]. Qed.

Lemma split_from_skip sep ms t :
  forall cur rest,
    split_from sep ms (String.length t) cur (t +:+ rest)
    = split_from sep ms O cur rest.
Proof.
  induction t as [|c t IH]; intros cur rest; [done|].
  rewrite str_app_cons. simpl. apply IH.
Qed.

Lemma split_from_plain c0 sep ms f :
  free_of (is_char c0) f ->
  forall cur rest,
    split_from (String c0 sep) ms O cur (f +:+ rest)
    = split_from (String c0 sep) ms O (cur +:+ f) rest.
Proof.
  induction f as [|c f IH]; intros Hf cur rest.
  - by rewrite str_app_nil_r.
  - apply free_of_cons in Hf as [Hc Hf]. rewrite str_app_cons.
    cbn [split_from]. rewrite prefix_head_ne, andb_false_r.
    + rewrite (IH Hf). by rewrite str_app_assoc.
    + unfold is_char in Hc. by apply bool_decide_eq_false in Hc.
Qed.

Lemma split_from_last c0 sep ms f cur :
  free_of (is_char c0) f ->
  split_from (String c0 sep) ms O cur f = [cur +:+ f].
Proof.
  intros Hf. rewrite <- (str_app_nil_r f) at 1.
  by rewrite split_from_plain.
Qed.

Lemma split_from_sep c0 sep ms cur rest :
  ms <> Some O ->
  split_from (String c0 sep) ms O cur (String c0 sep +:+ rest)
  = cur :: split_from (String c0 sep) (pred <$> ms) O EmptyString rest.
Proof.
  intros Hms. rewrite str_app_cons. cbn [split_from].
  rewrite bool_decide_eq_true_2 by done.
  rewrite <- (str_app_cons c0 sep rest), prefix_app. simpl.
  rewrite Nat.sub_0_r. f_equal. apply split_from_skip.
Qed.

Lemma split_from_no_more sep cur s :
  split_from sep (Some O) O cur s = [cur +:+ s].
Proof.
  revert cur. induction s as [|c s IH]; intros cur.
  - by rewrite str_app_nil_r.
  - cbn [split_from]. rewrite bool_decide_eq_false_2 by (intros H; by apply H).
    simpl. rewrite IH. by rewrite str_app_assoc.
Qed.

(** A [split] always returns at least one field. *)
Lemma split_from_head sep ms skip cur s :
  is_Some (split_from sep ms skip cur s !! O).
Proof.
  revert ms skip cur. induction s as [|c s IH]; intros ms skip cur; [by eexists|].
  cbn [split_from]. destruct skip as [|k]; [|apply IH].
  destruct (bool_decide (ms <> Some O) && String.prefix sep (String c s));
    [by eexists | apply IH].
Qed.

(** *** [strip] *)

Lemma lstrip_by_length sp u :
  (String.length (lstrip_by sp u) <= String.length u)%nat.
Proof.
  induction u as [|c' u IHu]; [done|]. simpl.
  destruct (sp c'); simpl; lia.
Qed.

Lemma lstrip_app s t :
  lstrip s = s -> s <> EmptyString \/ lstrip t = t -> lstrip (s +:+ t) = s +:+ t.
Proof.
  destruct s as [|c s]; intros Hs Hor.
  - destruct Hor; done.
  - rewrite str_app_cons. simpl in *. destruct (is_space c) eqn:E; [|done].
    exfalso. pose proof (lstrip_by_length is_space s) as Hlen.
    rewrite Hs in Hlen. simpl in Hlen. lia.
Qed.

Lemma rstrip_app s t :
  rstrip (s +:+ t)
  = match rstrip t with
    | EmptyString => rstrip s
    | r => s +:+ r
    end.
Proof.
  induction s as [|c s IH].
  - change (EmptyString +:+ t) with t. destruct (rstrip t); reflexivity.
  - rewrite str_app_cons. cbn [rstrip_by]. rewrite IH.
    destruct (rstrip t) as [|c' r]; [reflexivity|].
    destruct s; reflexivity.
Qed.

Lemma rstrip_spaces t : free_of (fun c => negb (is_space c)) t -> rstrip t = EmptyString.
Proof.
  induction t as [|c t IH]; [done|]. rewrite free_of_cons.
  intros [Hc Ht]. simpl. rewrite (IH Ht).
  apply negb_false_iff in Hc. by rewrite Hc.
Qed.

Lemma rstrip_snoc s c : is_space c = false ->
  rstrip (s +:+ String c EmptyString) = s +:+ String c EmptyString.
Proof. intros Hc. rewrite rstrip_app. simpl. by rewrite Hc. Qed.

(** Nothing is stripped from a string without a character of the
    class. *)
Lemma strip_by_no_space sp s :
  free_of sp s -> rstrip_by sp (lstrip_by sp s) = s.
Proof.
  intros Hs.
  assert (Hl : lstrip_by sp s = s).
  { destruct s as [|c s]; [done|]. apply free_of_cons in Hs as [Hc _].
    simpl. by rewrite Hc. }
  rewrite Hl. induction s as [|c s IH]; [done|].
  apply free_of_cons in Hs as [Hc Hs]. simpl.
  rewrite IH; [|done|].
  - destruct s; [by rewrite Hc | done].
  - destruct s as [|c' s]; [done|]. apply free_of_cons in Hs as [Hc' _].
    simpl. by rewrite Hc'.
Qed.

Lemma strip_no_space s : free_of is_space s -> strip s = s.
Proof. apply strip_by_no_space. Qed.

(** *** [int] and [str] *)

Lemma is_digit_not_space c : is_digit c = true -> is_space c = false.
Proof.
  unfold is_digit, is_space. intros [H1 H2]%andb_true_iff.
  apply Nat.leb_le in H1, H2.
  repeat match goal with
         | |- context [(?a <=? ?b)%nat] => destruct (Nat.leb_spec a b)
         | |- context [(?a =? ?b)%nat] => destruct (Nat.eqb_spec a b)
         end; simpl; try done; lia.
Qed.

Lemma is_digit_not_int_space c : is_digit c = true -> is_int_space c = false.
Proof.
  unfold is_digit, is_int_space. intros [H1 H2]%andb_true_iff.
  apply Nat.leb_le in H1, H2.
  repeat match goal with
         | |- context [(?a <=? ?b)%nat] => destruct (Nat.leb_spec a b)
         | |- context [(?a =? ?b)%nat] => destruct (Nat.eqb_spec a b)
         end; simpl; try done; lia.
Qed.

Lemma is_digit_not_char c c0 : is_digit c0 = false -> is_digit c = true -> c <> c0.
Proof. intros H0 H ->. congruence. Qed.

Lemma string_of_uint_digits d :
  free_of (fun c => negb (is_digit c)) (NilEmpty.string_of_uint d).
Proof. unfold free_of. induction d; simpl; auto. Qed.

Lemma digits_ok_digits s b :
  free_of (fun c => negb (is_digit c)) s ->
  digits_ok b s = match s with EmptyString => b | _ => true end.
Proof.
  revert b. induction s as [|c s IH]; intros b; [done|].
  rewrite free_of_cons. intros [Hc Hs]. apply negb_false_iff in Hc.
  simpl. rewrite Hc, (IH true Hs). by destruct s.
Qed.

Lemma drop_underscores_digits s :
  free_of (fun c => negb (is_digit c)) s -> drop_underscores s = s.
Proof.
  induction s as [|c s IH]; [done|]. rewrite free_of_cons.
  intros [Hc Hs]. apply negb_false_iff in Hc. simpl.
  rewrite bool_decide_eq_false_2, (IH Hs); [done|].
  by apply (is_digit_not_char c "_"%char).
Qed.

Lemma unsigned_value_of_uint d :
  d <> Decimal.Nil ->
  Z.of_nat (String.length (NilEmpty.string_of_uint d)) <= max_str_digits ->
  unsigned_value (NilEmpty.string_of_uint d) = Some (Z.of_uint d).
Proof.
  intros Hd Hlen. unfold unsigned_value.
  pose proof (string_of_uint_digits d) as Hdig.
  rewrite digits_ok_digits, drop_underscores_digits, NilEmpty.usu by done.
  destruct (Z.leb_spec (Z.of_nat (String.length (NilEmpty.string_of_uint d)))
              max_str_digits); [|lia].
  by destruct d.
Qed.

(** A numeral has more digits than the limit, and then [int] refuses
    it. *)
Lemma unsigned_value_too_long s :
  max_str_digits < Z.of_nat (String.length (drop_underscores s)) ->
  unsigned_value s = None.
Proof.
  intros Hlen. unfold unsigned_value.
  destruct (Z.leb_spec (Z.of_nat (String.length (drop_underscores s)))
              max_str_digits); [lia|].
  by rewrite andb_false_r.
Qed.

Lemma decimal_digits_free (bad : ascii -> bool) z :
  (forall c, is_digit c = true -> bad c = false) -> bad "-"%char = false ->
  free_of bad (decimal z).
Proof.
  intros Hdig Hminus.
  assert (Hu : forall d, free_of bad (NilEmpty.string_of_uint d)).
  { intros d. apply (free_of_weaken (fun c => negb (is_digit c)));
      [|apply string_of_uint_digits].
    intros c Hc. destruct (is_digit c) eqn:E; [|done].
    apply Hdig in E. congruence. }
  assert (Hz : forall d, free_of bad (NilZero.string_of_uint d)).
  { intros d. destruct d; try apply Hu. apply free_of_cons.
    split; [by apply Hdig | done]. }
  unfold decimal. destruct z; simpl; [|apply Hz|].
  - apply free_of_cons. split; [by apply Hdig | done].
  - apply free_of_cons. split; [done | apply Hz].
Qed.

Lemma of_int_printable z : printable z -> of_int z = Ok (decimal z).
Proof.
  unfold printable, of_int. intros H.
  by destruct (Z.leb_spec (Z.of_nat (String.length (decimal (Z.abs z))))
                 max_str_digits); [|lia].
Qed.

Lemma of_int_not_printable z : ~ printable z -> of_int z = Raise ValueError.
Proof.
  unfold printable, of_int. intros H.
  by destruct (Z.leb_spec (Z.of_nat (String.length (decimal (Z.abs z))))
                 max_str_digits); [lia|].
Qed.

Lemma printable_dec z : {printable z} + {~ printable z}.
Proof. unfold printable. apply Z_le_dec. Qed.

Lemma of_opt_int_printable o :
  (forall z, o = Some z -> printable z) ->
  of_opt_int o = Ok (match o with Some z => decimal z | None => "None" end).
Proof. destruct o as [z|]; [|done]. intros H. apply of_int_printable. by apply H. Qed.

(** [int(str(z)) = z] for every integer that [str] prints. *)
Lemma to_int_decimal z : printable z -> to_int (decimal z) = Some z.
Proof.
  intros Hp. unfold to_int. rewrite strip_by_no_space
    by (apply decimal_digits_free; [apply is_digit_not_int_space | done]).
  unfold printable in Hp. unfold decimal in *.
  destruct z as [|p|p]; [done| |].
  - pose proof (Unsigned.to_uint_nonnil p) as Hnn.
    pose proof (DecimalZ.of_to (Z.pos p)) as Hz. simpl in Hz.
    assert (Hlen : Z.of_nat (String.length
                     (NilEmpty.string_of_uint (Pos.to_uint p)))
                   <= max_str_digits).
    { simpl in Hp. by destruct (Pos.to_uint p). }
    pose proof (unsigned_value_of_uint _ Hnn Hlen) as Hv.
    pose proof (string_of_uint_digits (Pos.to_uint p)) as Hdig.
    clear Hp Hlen.
    simpl. destruct (Pos.to_uint p) as [|d|d|d|d|d|d|d|d|d|d] eqn:E;
      [done|..]; simpl in *; by rewrite Hv, Hz.
  - pose proof (Unsigned.to_uint_nonnil p) as Hnn.
    pose proof (DecimalZ.of_to (Z.neg p)) as Hz. simpl in Hz.
    assert (Hlen : Z.of_nat (String.length
                     (NilEmpty.string_of_uint (Pos.to_uint p)))
                   <= max_str_digits).
    { simpl in Hp. by destruct (Pos.to_uint p). }
    pose proof (unsigned_value_of_uint _ Hnn Hlen) as Hv.
    clear Hp Hlen.
    simpl. replace (NilZero.string_of_uint (Pos.to_uint p))
      with (NilEmpty.string_of_uint (Pos.to_uint p))
      by (by destruct (Pos.to_uint p)).
    rewrite Hv. simpl. by rewrite Hz.
Qed.

End StrFacts.

(** ** Parse loops *)

Section ForYield.

Context {L A : Type} (body : L -> step A).

Lemma for_yield_raised ending items :
  (forall x e, x ∈ items -> body x <> Abort e) ->
  raised (for_yield body ending items) = ending.
Proof.
  induction items as [|x items IH]; intros Hno; [done|]. simpl.
  destruct (body x) as [a|d|e] eqn:E.
  - simpl. apply IH. intros y e Hy. apply Hno. by right.
  - simpl. apply IH. intros y e Hy. apply Hno. by right.
  - exfalso. apply (Hno x e); [left | done].
Qed.

Lemma for_yield_yielded ending items a :
  a ∈ yielded (for_yield body ending items) ->
  exists x, x ∈ items /\ body x = Yield a.
Proof.
  induction items as [|x items IH]; simpl.
  - intros H. by apply elem_of_nil in H.
  - destruct (body x) as [a'|d|e] eqn:E; simpl.
    + intros [->|H]%elem_of_cons.
      * exists x. split; [left | done].
      * destruct (IH H) as (y & Hy & Hb). exists y. split; [by right | done].
    + intros H. destruct (IH H) as (y & Hy & Hb).
      exists y. split; [by right | done].
    + intros H. by apply elem_of_nil in H.
Qed.

Lemma for_yield_printed ending items d :
  d ∈ printed (for_yield body ending items) ->
  exists x, x ∈ items /\ body x = Skip (Some d).
Proof.
  induction items as [|x items IH]; simpl.
  - intros H. by apply elem_of_nil in H.
  - destruct (body x) as [a'|d'|e] eqn:E; simpl.
    + intros H. destruct (IH H) as (y & Hy & Hb).
      exists y. split; [by right | done].
    + intros [Hd|H]%elem_of_app.
      * destruct d' as [d'|]; simpl in Hd; [|by apply elem_of_nil in Hd].
        apply list_elem_of_singleton in Hd as ->.
        exists x. split; [left | done].
      * destruct (IH H) as (y & Hy & Hb). exists y. split; [by right | done].
    + intros H. by apply elem_of_nil in H.
Qed.

(** Every entry is yielded, skipped with a diagnostic, or skipped
    silently, as long as nothing escapes. *)
Lemma for_yield_count ending items :
  (length (yielded (for_yield body ending items))
   + length (printed (for_yield body ending items)) <= length items)%nat.
Proof.
  induction items as [|x items IH]; [done|]. simpl.
  destruct (body x) as [a|[d|]|e]; simpl; rewrite ?length_app; simpl; lia.
Qed.

End ForYield.

Lemma yield_each_ok {A B} (f : A -> result B) (g : A -> B) l :
  (forall x, x ∈ l -> f x = Ok (g x)) -> yield_each f l = (g <$> l, None).
Proof.
  induction l as [|x l IH]; intros H; [done|]. simpl.
  rewrite H by left. rewrite IH; [done|]. intros y Hy. apply H. by right.
Qed.

Lemma split_file_text lines :
  Forall (free_of (is_char "010")) lines ->
  Str.split Str.newline (ModListStreamer.file_text lines)
  = lines ++ [EmptyString].
Proof.
  unfold Str.split, Str.newline. induction 1 as [|line lines Hl _ IH]; [done|].
  simpl ModListStreamer.file_text.
  change (String "010" (ModListStreamer.file_text lines))
    with (String "010" EmptyString +:+ ModListStreamer.file_text lines).
  rewrite split_from_plain by done.
  rewrite split_from_sep by done. simpl. by rewrite IH.
Qed.

Lemma free_of_file_text bad lines :
  bad "010"%char = false -> Forall (free_of bad) lines ->
  free_of bad (ModListStreamer.file_text lines).
Proof.
  intros Hb. induction 1 as [|line lines Hl _ IH]; [done|].
  simpl ModListStreamer.file_text. apply free_of_app. split; [done|].
  apply free_of_cons. by split.
Qed.

(** A content without carriage return is read as it is. *)
Lemma read_text_plain s :
  free_of (is_char "013") s -> ModListStreamer.read_text s = s.
Proof.
  induction s as [|c s IH]; [done|]. rewrite free_of_cons.
  intros [Hc Hs]. cbn [ModListStreamer.read_text]. unfold is_char in Hc.
  by rewrite Hc, IH.
Qed.

Lemma free_of_line_break s :
  free_of line_break s -> free_of (is_char "010") s /\ free_of (is_char "013") s.
Proof.
  intros H. split; (eapply free_of_weaken; [|exact H]);
    intros c Hc; unfold line_break; rewrite Hc; by rewrite ?orb_true_r.
Qed.

(** The lines that a [write] puts in a file come back from it, with an
    empty last line, when they hold no line break. *)
Lemma read_file_lines lines :
  Forall (free_of line_break) lines ->
  Str.split Str.newline
    (ModListStreamer.read_text (ModListStreamer.file_text lines))
  = lines ++ [EmptyString].
Proof.
  intros Hl. rewrite read_text_plain, split_file_text; [done|..].
  - eapply Forall_impl; [exact Hl|]. intros l Hf. by apply free_of_line_break.
  - apply free_of_file_text; [done|].
    eapply Forall_impl; [exact Hl|]. intros l Hf. by apply free_of_line_break.
Qed.

Lemma decimal_no_line_break z : free_of line_break (Str.decimal z).
Proof.
  apply decimal_digits_free; [|done]. intros c Hc. unfold line_break, is_char.
  rewrite !bool_decide_eq_false_2; [done|..];
    by eapply is_digit_not_char; [|exact Hc].
Qed.

(** ** [ModListV1Format] *)

Lemma v1_parse_line_no_abort line e : ModListV1Format.parse_line line <> Abort e.
Proof.
  unfold ModListV1Format.parse_line, Str.split_max.
  destruct (split_from_head "#" (Some 1%nat) O EmptyString line) as [sid Hs].
  unfold ModListV1Format.STEAM_ID. rewrite Hs.
  by destruct (Str.to_int sid).
Qed.

(** [ModListV1Format.parse] never raises on a string, whatever its
    lines: every record it yields is a stub carrying a steam id, every
    diagnostic it prints names a non-empty line of the text as it is,
    and no line gives more than one of the two. *)
Theorem v1_parse_never_raises (text : string) :
  let r := ModListV1Format.parse (Text text) in
  raised r = None
  /\ (forall m, m ∈ yielded r -> exists z, m = Mod.ModStub z)
  /\ (forall d, d ∈ printed r ->
                exists line, line ∈ Str.split Str.newline text
                             /\ line <> EmptyString /\ d = DiagLine line)
  /\ (length (yielded r) + length (printed r)
      <= length (Str.split Str.newline text))%nat.
Proof.
  simpl. split; [|split; [|split]].
  - apply for_yield_raised. intros line e _. apply v1_parse_line_no_abort.
  - intros m (line & _ & Hb)%for_yield_yielded.
    unfold ModListV1Format.parse_line in Hb.
    destruct (_ !! _); [|done]. destruct (Str.to_int _) as [z|]; [|done].
    injection Hb as <-. by exists z.
  - intros d (line & Hin & Hb)%for_yield_printed. exists line.
    split; [done|]. unfold ModListV1Format.parse_line in Hb.
    destruct (_ !! _); [|done]. destruct (Str.to_int _) as [z|]; [done|].
    unfold truthy in Hb. destruct (bool_decide (line = EmptyString)) eqn:E;
      simpl in Hb; [done|]. apply bool_decide_eq_false in E.
    injection Hb as <-. done.
  - apply for_yield_count.
Qed.

Lemma v1_format_ok m z :
  Mod.steamid m = Some z -> printable z ->
  ModListV1Format.format m = Ok (v1_line m).
Proof.
  intros Hz Hp. unfold ModListV1Format.format, v1_line, Str.of_opt_int.
  rewrite Hz. by rewrite of_int_printable.
Qed.

Lemma v1_parse_line m z :
  Mod.steamid m = Some z -> printable z ->
  ModListV1Format.parse_line (v1_line m) = Yield (Mod.ModStub z).
Proof.
  intros Hz Hp. unfold ModListV1Format.parse_line, v1_line, Str.split_max.
  rewrite Hz. cbn [default].
  rewrite split_from_plain.
  2:{ apply decimal_digits_free; [|done]. intros c Hc.
      apply bool_decide_eq_false. by apply (is_digit_not_char c "#"%char). }
  change ("# " +:+ ?x) with ("#" +:+ (" " +:+ x)).
  rewrite split_from_sep by done.
  unfold ModListV1Format.STEAM_ID. rewrite str_app_nil_l. simpl.
  by rewrite to_int_decimal.
Qed.

Lemma v1_line_no_line_break m :
  v1_writable m -> free_of line_break (v1_line m).
Proof.
  intros (_ & Hn & Ha). unfold v1_line. rewrite !free_of_app.
  split; [apply decimal_no_line_break|].
  split; [done|]. split; [done|]. split; [done|]. split; done.
Qed.

(** What [ModListV1Format] writes to a file is read back from that
    file as the stubs of the same steam ids in the same order, without
    a diagnostic, when every record has a steam id that [str] prints
    and neither a line feed nor a carriage return in its name or
    author: the name and the author themselves are not read back. *)
Theorem v1_round_trip_steamids (mods : list Mod.t) :
  Forall v1_writable mods ->
  (ModListStreamer.write mods ModListV1Format.codec).2 = Ok true
  /\ ModListV1Format.parse
       (Text (ModListStreamer.read_text
                (ModListStreamer.write mods ModListV1Format.codec).1))
     = Run ((fun m => Mod.make EmptyString (Mod.steamid m) None) <$> mods) [] None
  /\ ModListStreamer.read
       (Some (ModListStreamer.write mods ModListV1Format.codec).1)
       ModListV1Format.codec
     = Ok (Some ((fun m => Mod.make EmptyString (Mod.steamid m) None) <$> mods)).
Proof.
  intros Hok.
  assert (Hser : ModListV1Format.serialize mods = (v1_line <$> mods, None)).
  { apply yield_each_ok. intros m Hm.
    rewrite Forall_forall in Hok. destruct (Hok m Hm) as ((z & Hz & Hp) & _).
    by apply (v1_format_ok m z). }
  assert (Hpar : ModListV1Format.parse
                   (Text (ModListStreamer.read_text
                            (ModListStreamer.file_text (v1_line <$> mods))))
                 = Run ((fun m => Mod.make EmptyString (Mod.steamid m) None)
                          <$> mods) [] None).
  { cbn [ModListV1Format.parse]. rewrite read_file_lines.
    2:{ apply Forall_fmap. eapply Forall_impl; [exact Hok|].
        intros m Hm. by apply v1_line_no_line_break. }
    clear Hser. induction Hok as [|m mods ((z & Hz & Hp) & _) _ IH]; [done|].
    rewrite !fmap_cons. simpl. rewrite (v1_parse_line m z Hz Hp).
    unfold Mod.ModStub. simpl in IH. by rewrite IH, Hz. }
  unfold ModListStreamer.write, ModListStreamer.read. simpl serialize.
  rewrite Hser. simpl fst. simpl snd. split; [done|]. split; [exact Hpar|].
  change (parse ModListV1Format.codec) with ModListV1Format.parse.
  by rewrite Hpar.
Qed.

Lemma v1_round_trip_steamids_witness :
  let m := {| Mod.packageid := "a.b"; Mod.before := None; Mod.after := None;
              Mod.incompatible := None; Mod.path := None;
              Mod.author := Some "Alice"; Mod.name := Some "Good Mod";
              Mod.versions := None; Mod.steamid := Some 123;
              Mod.ignored := false; Mod.repo_url := None;
              Mod.workshop_managed := None |} in
  Forall v1_writable [m]
  /\ (ModListStreamer.write [m] ModListV1Format.codec).1
     = "123# Good Mod by Alice " +:+ Str.newline
  /\ ModListStreamer.read
       (Some (ModListStreamer.write [m] ModListV1Format.codec).1)
       ModListV1Format.codec
     = Ok (Some [Mod.ModStub 123]).
Proof.
  intros m.
  assert (H : Forall v1_writable [m]).
  { apply Forall_cons. split; [|apply Forall_nil_2].
    split; [exists 123; split; [reflexivity | vm_compute; discriminate]|].
    split; reflexivity. }
  split; [exact H|]. split; [reflexivity|].
  exact (proj2 (proj2 (v1_round_trip_steamids [m] H))).
Defined.

(** ** [ModListV2Format] *)

Lemma v2_parse_line_char c :
  ModListV2Format.parse_line (String c EmptyString) = Abort IndexError.
Proof.
  unfold ModListV2Format.parse_line, ModListV2Format.SEPERATOR, Str.split.
  cbn [Str.split_from String.prefix].
  destruct (ascii_dec ":" c); by rewrite andb_false_r.
Qed.

(** Given a string, [ModListV2Format.parse] yields nothing and raises
    [IndexError], whatever the string holds, unless it is empty: the
    loop runs over its characters and no character has a second field. *)
Theorem v2_parse_text_raises (text : string) :
  text <> EmptyString ->
  ModListV2Format.parse (Text text) = Run [] [] (Some IndexError).
Proof.
  destruct text as [|c text]; [done|]. intros _. simpl.
  by rewrite v2_parse_line_char.
Qed.

Lemma v2_parse_text_raises_witness :
  ModListV2Format.parse (Text "some.mod::123::https://example.org/repo")
  = Run [] [] (Some IndexError).
Proof. apply v2_parse_text_raises. discriminate. Defined.

Lemma v2_format_ok m z url :
  Mod.steamid m = Some z -> printable z -> Mod.repo_url m = Some url ->
  ModListV2Format.format m = Ok (v2_line m).
Proof.
  intros Hz Hp Hu. unfold ModListV2Format.format, v2_line, Str.of_opt_int.
  rewrite Hz, Hu. by rewrite of_int_printable.
Qed.

Lemma v2_parse_line m z url :
  Mod.packageid m <> EmptyString ->
  free_of (is_char ":") (Mod.packageid m) ->
  free_of (is_char ":") url ->
  Mod.steamid m = Some z -> printable z -> Mod.repo_url m = Some url ->
  ModListV2Format.parse_line (v2_line m) = Yield (triple m).
Proof.
  intros Hne Hp Hu Hz Hpr Hurl.
  unfold ModListV2Format.parse_line, ModListV2Format.SEPERATOR, Str.split,
    v2_line. rewrite Hz, Hurl. cbn [default].
  rewrite split_from_plain by done. rewrite split_from_sep by done.
  rewrite split_from_plain.
  2:{ apply decimal_digits_free; [|done]. intros c Hc.
      apply bool_decide_eq_false. by apply (is_digit_not_char c ":"%char). }
  rewrite split_from_sep by done.
  rewrite split_from_last by done.
  rewrite !str_app_nil_l. simpl.
  unfold ModListV2Format.PACKAGE_ID, ModListV2Format.STEAM_ID,
    ModListV2Format.REPO_URL. simpl.
  case_bool_decide; [done|]. simpl.
  rewrite to_int_decimal by done. unfold triple. by rewrite Hz, Hurl.
Qed.

Lemma v2_round_trip_lines (mods : list Mod.t) :
  Forall v2_writable mods ->
  ModListV2Format.serialize mods = (v2_line <$> mods, None)
  /\ ModListV2Format.parse (Lines (v2_line <$> mods))
     = Run (triple <$> mods) [] None.
Proof.
  induction 1 as [|m mods (Hne & Hp & (z & Hz & Hpr) & url & Hurl & Hu) _ IH].
  - done.
  - destruct IH as (Hser & Hpar).
    unfold ModListV2Format.serialize in *. rewrite !fmap_cons. simpl.
    rewrite (v2_format_ok m z url Hz Hpr Hurl), Hser. split; [done|].
    simpl in Hpar. rewrite (v2_parse_line m z url) by done.
    by rewrite Hpar.
Qed.

(** The three ways in which the V2 [format] of a record ends. *)
Lemma v2_format_cases m :
  (steamid_printable m /\ is_Some (Mod.repo_url m)
   /\ exists line, ModListV2Format.format m = Ok line)
  \/ (steamid_printable m /\ Mod.repo_url m = None
      /\ ModListV2Format.format m = Raise TypeError)
  \/ (~ steamid_printable m /\ ModListV2Format.format m = Raise ValueError).
Proof.
  unfold ModListV2Format.format, steamid_printable, Str.of_opt_int.
  destruct (Mod.steamid m) as [z|].
  - destruct (printable_dec z) as [Hp|Hp].
    + rewrite of_int_printable by done. simpl.
      destruct (Mod.repo_url m) as [url|].
      * left. split; [by intros ? [= <-]|]. split; by eexists.
      * right. left. split; [by intros ? [= <-]|]. done.
    + rewrite of_int_not_printable by done. simpl.
      right. right. split; [|done]. intros H. by apply Hp, H.
  - simpl. destruct (Mod.repo_url m) as [url|].
    + left. split; [done|]. split; by eexists.
    + right. left. done.
Qed.

(** [ModListV2Format.serialize] ends normally exactly when every record
    has a repo url and a steam id that [str] prints (or none); a record
    without a repo url ends it with [TypeError], a steam id of more
    digits than the limit with [ValueError], and nothing else is
    raised. *)
Theorem v2_serialize_needs_repo_url (mods : list Mod.t) :
  ((ModListV2Format.serialize mods).2 = None
   <-> Forall (fun m => steamid_printable m /\ is_Some (Mod.repo_url m)) mods)
  /\ (forall e, (ModListV2Format.serialize mods).2 = Some e ->
                e = TypeError \/ e = ValueError).
Proof.
  unfold ModListV2Format.serialize. induction mods as [|m mods [IH1 IH2]].
  - split; [|done]. split; [intros _; apply Forall_nil_2 | done].
  - rewrite Forall_cons, <- IH1. simpl.
    destruct (v2_format_cases m)
      as [(Hp & Hu & line & ->)|[(Hp & Hu & ->)|(Hp & ->)]].
    + destruct (yield_each _ mods) as [ls e]. simpl in *.
      split; [|done]. split; [by intros -> | by intros [_ ->]].
    + simpl. split; [|intros e [= <-]; by left].
      split; [done|]. rewrite Hu. by intros [[_ [? [=]]] _].
    + simpl. split; [|intros e [= <-]; by right].
      split; [done|]. by intros [[? _] _].
Qed.

Lemma v2_serialize_needs_repo_url_witness :
  (ModListV2Format.serialize [Mod.make "a" (Some 1) (Some "u")]).2 = None
  /\ (ModListV2Format.serialize
        [Mod.make "a" (Some 1) (Some "u"); Mod.make "b" (Some 2) None]).2
     = Some TypeError.
Proof.
  split.
  - apply (proj1 (v2_serialize_needs_repo_url _)).
    apply Forall_cons. split; [|apply Forall_nil_2].
    split; [|by eexists]. intros z [= <-]. vm_compute. discriminate.
  - reflexivity.
Defined.

(** A record that [ModListV2Format.parse] yields has a non-empty
    package id, a steam id and a repo url: the repo url is never
    [None], not even when its field is empty. *)
Theorem v2_parsed_record_fields (text : pytext) (m : Mod.t) :
  m ∈ yielded (ModListV2Format.parse text) ->
  Mod.packageid m <> EmptyString
  /\ is_Some (Mod.steamid m) /\ is_Some (Mod.repo_url m).
Proof.
  intros Hm.
  assert (Hline : exists line, ModListV2Format.parse_line line = Yield m).
  { destruct text; simpl in Hm;
      apply for_yield_yielded in Hm as (line & _ & Hb); by exists line. }
  destruct Hline as (line & Hb). unfold ModListV2Format.parse_line in Hb.
  destruct (_ !! ModListV2Format.PACKAGE_ID) as [pid|]; [|done].
  destruct (negb (truthy (PStr pid))) eqn:E; [done|].
  destruct (_ !! ModListV2Format.STEAM_ID) as [sid|]; [|done].
  destruct (Str.to_int sid) as [z|]; [|done].
  destruct (_ !! ModListV2Format.REPO_URL) as [url|]; [|done].
  injection Hb as <-. simpl. split; [|split; by eexists].
  intros ->. done.
Qed.

Lemma v2_parsed_record_fields_witness :
  let m := Mod.make "a" (Some 1) (Some EmptyString) in
  Mod.packageid m <> EmptyString
  /\ is_Some (Mod.steamid m) /\ is_Some (Mod.repo_url m).
Proof.
  intros m. apply (v2_parsed_record_fields (Lines ["a::1::"]) m).
  vm_compute. left.
Defined.

(** ** The csv writer and reader *)

Section CsvFacts.

Import Csv.

Lemma needs_quote_false c :
  needs_quote c = false ->
  c <> ","%char /\ c <> quotechar /\ is_newline c = false.
Proof.
  unfold needs_quote, is_newline. rewrite !orb_false_iff.
  intros [[[H1 H2] H3] H4]. apply bool_decide_eq_false in H1, H2.
  by rewrite H3, H4.
Qed.

Lemma written_plain f : free_of needs_quote f -> written f = f.
Proof. intros Hf. unfold written, write_field. simpl. by rewrite Hf. Qed.

Lemma written_quoted f :
  Str.any_char needs_quote f = true ->
  written f = String quotechar (double_quotes f +:+ String quotechar EmptyString).
Proof. intros Hf. unfold written, write_field. simpl. by rewrite Hf. Qed.

Lemma writerow_three a b c :
  writerow [Some a; Some b; Some c]
  = written a +:+ "," +:+ written b +:+ "," +:+ written c
    +:+ String "013" (String "010" EmptyString).
Proof.
  unfold writerow, written.
  change (bool_decide (length [Some a; Some b; Some c] = 1%nat)) with false.
  cbn [fmap list_fmap Str.join]. by rewrite !str_app_assoc.
Qed.

Lemma process_plain_char st fs cur c :
  accepting st = true -> needs_quote c = false ->
  Z.of_nat (String.length cur) < field_limit ->
  parse_process_char (Reader st fs cur) (Some c)
  = Ok (Reader IN_FIELD fs (cur +:+ String c EmptyString)).
Proof.
  intros Hst (Hc1 & Hc2 & Hc3)%needs_quote_false Hlen.
  unfold parse_process_char, parse_add_char. simpl. rewrite Hc3.
  rewrite !bool_decide_eq_false_2 by done.
  destruct (Z.leb_spec field_limit (Z.of_nat (String.length cur))); [lia|].
  by destruct st.
Qed.

Lemma feed_chars_plain f :
  forall st fs cur,
    accepting st = true -> free_of needs_quote f ->
    Z.of_nat (String.length cur + String.length f) <= field_limit ->
    feed_chars (Reader st fs cur) f
    = Ok (Reader (match f with EmptyString => st | _ => IN_FIELD end)
                 fs (cur +:+ f)).
Proof.
  induction f as [|c f IH]; intros st fs cur Hst Hf Hlen.
  - by rewrite str_app_nil_r.
  - apply free_of_cons in Hf as [Hc Hf]. simpl in Hlen. simpl.
    rewrite process_plain_char by (done || lia).
    rewrite IH; [|done|done|].
    + rewrite str_app_assoc. by destruct f.
    + rewrite str_length_app. simpl. lia.
Qed.

Lemma feed_chars_app r s t :
  feed_chars r (s +:+ t)
  = match feed_chars r s with
    | Ok r' => feed_chars r' t
    | Raise e => Raise e
    end.
Proof.
  revert r. induction s as [|c s IH]; intros r; [done|].
  rewrite str_app_cons. simpl.
  destruct (parse_process_char r (Some c)); [apply IH | done].
Qed.

(** Inside the quotes every character but the quote is taken as it
    is, and a doubled quote as one quote. *)
Lemma process_quoted_char fs cur c :
  c <> quotechar -> Z.of_nat (String.length cur) < field_limit ->
  parse_process_char (Reader IN_QUOTED_FIELD fs cur) (Some c)
  = Ok (Reader IN_QUOTED_FIELD fs (cur +:+ String c EmptyString)).
Proof.
  intros Hc Hlen. unfold parse_process_char, parse_add_char. simpl.
  rewrite bool_decide_eq_false_2 by done.
  by destruct (Z.leb_spec field_limit (Z.of_nat (String.length cur))); [lia|].
Qed.

Lemma process_doubled_quote fs cur rest :
  Z.of_nat (String.length cur) < field_limit ->
  feed_chars (Reader IN_QUOTED_FIELD fs cur)
             (String quotechar (String quotechar rest))
  = feed_chars (Reader IN_QUOTED_FIELD fs (cur +:+ String quotechar EmptyString))
               rest.
Proof.
  intros Hlen. cbn [feed_chars]. unfold parse_process_char, parse_add_char.
  simpl.
  by destruct (Z.leb_spec field_limit (Z.of_nat (String.length cur))); [lia|].
Qed.

Lemma feed_quoted_body f :
  forall fs cur,
    Z.of_nat (String.length cur + String.length f) <= field_limit ->
    feed_chars (Reader IN_QUOTED_FIELD fs cur) (double_quotes f)
    = Ok (Reader IN_QUOTED_FIELD fs (cur +:+ f)).
Proof.
  induction f as [|c f IH]; intros fs cur Hlen.
  - by rewrite str_app_nil_r.
  - simpl in Hlen. cbn [double_quotes]. case_bool_decide as Hc.
    + subst c. rewrite process_doubled_quote by lia.
      rewrite IH by (rewrite str_length_app; simpl; lia).
      by rewrite str_app_assoc.
    + cbn [feed_chars]. rewrite process_quoted_char by (done || lia).
      rewrite IH by (rewrite str_length_app; simpl; lia).
      by rewrite str_app_assoc.
Qed.

Lemma process_comma st fs cur :
  field_read st = true ->
  parse_process_char (Reader st fs cur) (Some ","%char)
  = Ok (Reader START_FIELD (fs ++ [cur]) EmptyString).
Proof. by destruct st. Qed.

Lemma process_eol st fs cur :
  field_read st = true -> st <> START_RECORD ->
  parse_process_char (Reader st fs cur) None
  = Ok (Reader START_RECORD (fs ++ [cur]) EmptyString).
Proof. by destruct st. Qed.

(** A field as the writer writes it, quoted or not, is read back as
    the field. *)
Lemma feed_written f st fs :
  st = START_RECORD \/ st = START_FIELD ->
  Z.of_nat (String.length f) <= field_limit ->
  exists st',
    feed_chars (Reader st fs EmptyString) (written f) = Ok (Reader st' fs f)
    /\ field_read st' = true
    /\ (st = START_FIELD -> st' <> START_RECORD).
Proof.
  intros Hst Hlen. destruct (Str.any_char needs_quote f) eqn:E.
  - rewrite written_quoted by done. cbn [feed_chars].
    assert (Hopen : parse_process_char (Reader st fs EmptyString) (Some quotechar)
                    = Ok (Reader IN_QUOTED_FIELD fs EmptyString))
      by (by destruct Hst as [-> | ->]).
    rewrite Hopen, feed_chars_app, feed_quoted_body by (simpl; lia).
    rewrite str_app_nil_l. exists QUOTE_IN_QUOTED_FIELD. done.
  - rewrite written_plain by done.
    rewrite feed_chars_plain by (done || (by destruct Hst as [-> | ->]) || simpl; lia).
    rewrite str_app_nil_l. eexists. split; [done|].
    destruct f; destruct Hst as [-> | ->]; done.
Qed.

(** A field and the comma after it. *)
Lemma feed_field_comma f st fs rest :
  st = START_RECORD \/ st = START_FIELD ->
  Z.of_nat (String.length f) <= field_limit ->
  feed_chars (Reader st fs EmptyString) (written f +:+ "," +:+ rest)
  = feed_chars (Reader START_FIELD (fs ++ [f]) EmptyString) rest.
Proof.
  intros Hst Hlen. rewrite feed_chars_app.
  destruct (feed_written f st fs Hst Hlen) as (st' & -> & Hread & _).
  change ("," +:+ rest) with (String "," rest).
  cbn [feed_chars]. by rewrite process_comma.
Qed.

(** A written row of three fields is read back as those fields. *)
Lemma feed_line_three a b c :
  Z.of_nat (String.length a) <= field_limit ->
  Z.of_nat (String.length b) <= field_limit ->
  Z.of_nat (String.length c) <= field_limit ->
  feed_line (Reader START_RECORD [] EmptyString)
            (written a +:+ "," +:+ written b +:+ "," +:+ written c)
  = Ok (Reader START_RECORD [a; b; c] EmptyString).
Proof.
  intros Ha Hb Hc. unfold feed_line.
  rewrite feed_field_comma by (done || by left).
  rewrite feed_field_comma by (done || by right).
  destruct (feed_written c START_FIELD ([] ++ [a] ++ [b])) as (st' & Hrun & Hread & Hne);
    [by right | done |].
  simpl in *. rewrite Hrun. rewrite process_eol; [done..|]. by apply Hne.
Qed.

Lemma pop_write buffer row :
  CsvStringBuilder.pop (CsvStringBuilder.write buffer row) = Ok (row, buffer).
Proof.
  unfold CsvStringBuilder.pop, CsvStringBuilder.write.
  by rewrite last_snoc, removelast_last.
Qed.

Lemma free_of_double_quotes bad f :
  free_of bad f -> free_of bad (double_quotes f).
Proof.
  induction f as [|c f IH]; [done|]. rewrite free_of_cons.
  intros [Hc Hf]. cbn [double_quotes].
  case_bool_decide; rewrite !free_of_cons; auto.
Qed.

Lemma free_of_written bad f :
  bad quotechar = false -> free_of bad f -> free_of bad (written f).
Proof.
  intros Hq Hf. unfold written, write_field. simpl.
  destruct (Str.any_char needs_quote f); [|by rewrite orb_false_r].
  simpl. apply free_of_cons. split; [done|]. apply free_of_app.
  split; [by apply free_of_double_quotes|]. by apply free_of_cons.
Qed.

End CsvFacts.

(** ** [ModListV3Format] *)

Section V3Facts.

Import Str.

Lemma rstrip_cons_ne c s :
  rstrip s <> EmptyString -> rstrip (String c s) = String c (rstrip s).
Proof. intros H. simpl. by destruct (rstrip s). Qed.

Lemma rstrip_app_ne s t :
  rstrip t <> EmptyString -> rstrip (s +:+ t) = s +:+ rstrip t.
Proof. intros H. rewrite rstrip_app. by destruct (rstrip t). Qed.

Lemma str_app_ne s c t : s +:+ String c t <> EmptyString.
Proof. by destruct s. Qed.

Lemma strip_row a b c :
  lstrip a = a -> rstrip c = c ->
  strip (a +:+ "," +:+ b +:+ "," +:+ c +:+ String "013" (String "010" EmptyString))
  = a +:+ "," +:+ b +:+ "," +:+ c.
Proof.
  intros Ha Hc. unfold strip.
  rewrite lstrip_app by (done || by right).
  assert (H1 : rstrip ("," +:+ c +:+ String "013" (String "010" EmptyString))
               = "," +:+ c).
  { change ("," +:+ ?x) with (String "," x). cbn [rstrip_by].
    rewrite rstrip_app. change (rstrip (String "013" (String "010" EmptyString)))
      with EmptyString. cbv iota. rewrite Hc. by destruct c. }
  assert (H2 : rstrip (b +:+ "," +:+ c +:+ String "013" (String "010" EmptyString))
               = b +:+ "," +:+ c).
  { rewrite rstrip_app_ne; rewrite H1; [done|]. discriminate. }
  assert (H3 : rstrip ("," +:+ b +:+ "," +:+ c
                       +:+ String "013" (String "010" EmptyString))
               = "," +:+ b +:+ "," +:+ c).
  { change ("," +:+ b +:+ ?x) with (String "," (b +:+ x)).
    rewrite rstrip_cons_ne; rewrite H2; [done|]. apply str_app_ne. }
  rewrite rstrip_app_ne; rewrite H3; [done|]. discriminate.
Qed.

Lemma needs_quote_digit c : is_digit c = true -> Csv.needs_quote c = false.
Proof.
  intros H. unfold Csv.needs_quote.
  rewrite !bool_decide_eq_false_2; [done|..];
    by eapply is_digit_not_char; [|exact H].
Qed.

Lemma decimal_length z :
  printable z -> Z.of_nat (String.length (decimal z)) <= Csv.field_limit.
Proof.
  unfold printable, decimal, max_str_digits, Csv.field_limit.
  destruct z as [|p|p]; simpl; intros H; [lia | lia |].
  rewrite Nat2Z.inj_succ. lia.
Qed.

Lemma v3_format_ok m :
  steamid_printable m ->
  ModListV3Format.format m
  = Ok [ Some (Mod.packageid m);
         Some (match Mod.steamid m with
               | Some z => decimal z
               | None => "None"
               end);
         Mod.repo_url m ].
Proof.
  intros Hp. unfold ModListV3Format.format.
  cbn [truthy negb]. by rewrite of_opt_int_printable.
Qed.

Lemma v3_fields_written m z url :
  Mod.steamid m = Some z -> Mod.repo_url m = Some url ->
  v3_line m
  = written (Mod.packageid m) +:+ "," +:+ written (decimal z) +:+ ","
    +:+ written url.
Proof. intros Hz Hurl. unfold v3_line, v3_fields. by rewrite Hz, Hurl. Qed.

Lemma v3_serialize_one buffer m :
  v3_writable m ->
  ModListV3Format.serialize_one buffer m = Ok (v3_line m, buffer).
Proof.
  intros (_ & Hlp & (z & Hz & Hp) & url & Hurl & _ & Hru).
  unfold ModListV3Format.serialize_one.
  rewrite v3_format_ok by (intros z' Hz'; congruence).
  rewrite Hz, Hurl, pop_write, writerow_three.
  rewrite (v3_fields_written m z url) by done. by rewrite strip_row.
Qed.

Lemma v3_serialize_writable mods :
  Forall v3_writable mods ->
  ModListV3Format.serialize mods = (v3_line <$> mods, None).
Proof.
  unfold ModListV3Format.serialize, CsvStringBuilder.__init__.
  induction 1 as [|m mods Hm _ IH]; [done|].
  cbn [ModListV3Format.serialize_from].
  by rewrite (v3_serialize_one [] m Hm), IH.
Qed.

Lemma v3_line_no_line_break m :
  v3_writable m -> free_of line_break (v3_line m).
Proof.
  intros ([Hp _] & _ & (z & Hz & _) & url & Hurl & [Hu _] & _).
  rewrite (v3_fields_written m z url) by done.
  assert (Hw : forall f, free_of csv_delimiter f -> free_of line_break f).
  { intros f. apply free_of_weaken. intros c Hc.
    unfold csv_delimiter. by rewrite Hc, orb_true_r. }
  rewrite !free_of_app. split; [apply free_of_written; [done | by apply Hw]|].
  split; [done|].
  split; [apply free_of_written; [done | apply decimal_no_line_break]|].
  split; [done|]. apply free_of_written; [done | by apply Hw].
Qed.

Lemma v3_read_rows mods :
  Forall v3_writable mods ->
  Csv.reader_rows ((v3_line <$> mods) ++ [EmptyString])
  = ((v3_fields <$> mods) ++ [[]], None).
Proof.
  unfold Csv.reader_rows.
  induction 1 as [|m mods ([_ Hp] & _ & (z & Hz & Hzp) & url & Hurl & [_ Hu] & _) _ IH];
    [done|].
  rewrite !fmap_cons, (v3_fields_written m z url), <- !app_comm_cons by done.
  cbn [Csv.read_rows].
  rewrite feed_line_three by (done || by apply decimal_length).
  cbn [Csv.state Csv.fields].
  rewrite IH. unfold v3_fields. by rewrite Hz, Hurl.
Qed.

Lemma v3_parse_rows mods :
  Forall v3_writable mods ->
  for_yield ModListV3Format.parse_row None ((v3_fields <$> mods) ++ [[]])
  = Run (triple <$> mods) [DiagRow []] None.
Proof.
  induction 1 as [|m mods (_ & _ & (z & Hz & Hp) & url & Hurl & _) _ IH];
    [done|].
  rewrite !fmap_cons. cbn [app for_yield]. rewrite IH.
  unfold ModListV3Format.parse_row, ModListV3Format.PACKAGE_ID,
    ModListV3Format.STEAM_ID, ModListV3Format.REPO_URL, v3_fields.
  rewrite Hz, Hurl. simpl. rewrite to_int_decimal by done. simpl.
  unfold triple. by rewrite Hz, Hurl.
Qed.

(** The two ways in which one turn of the V3 [serialize] ends. *)
Lemma v3_serialize_one_cases buffer m :
  (steamid_printable m
   /\ exists line, ModListV3Format.serialize_one buffer m = Ok (line, buffer))
  \/ (~ steamid_printable m
      /\ ModListV3Format.serialize_one buffer m = Raise ValueError).
Proof.
  unfold ModListV3Format.serialize_one.
  destruct (Mod.steamid m) as [z|] eqn:Hz.
  - destruct (printable_dec z) as [Hp|Hp].
    + left. assert (Hm : steamid_printable m)
        by (intros z' Hz'; congruence).
      split; [done|]. rewrite v3_format_ok, pop_write by done. by eexists.
    + right. split; [intros H; by apply Hp, H|].
      unfold ModListV3Format.format, of_opt_int. rewrite Hz.
      cbn [truthy negb]. by rewrite of_int_not_printable.
  - left. assert (Hm : steamid_printable m)
      by (intros z' Hz'; congruence).
    split; [done|]. rewrite v3_format_ok, pop_write by done. by eexists.
Qed.

End V3Facts.

Lemma v3_round_trip_file (mods : list Mod.t) :
  Forall v3_writable mods ->
  ModListStreamer.write mods ModListV3Format.codec
  = (ModListStreamer.file_text (v3_line <$> mods), Ok true)
  /\ ModListV3Format.parse
       (Text (ModListStreamer.read_text
                (ModListStreamer.file_text (v3_line <$> mods))))
     = Run (triple <$> mods) [DiagRow []] None.
Proof.
  intros Hok. unfold ModListStreamer.write.
  simpl serialize. rewrite (v3_serialize_writable mods Hok).
  split; [done|]. cbn [ModListV3Format.parse]. rewrite read_file_lines.
  2:{ apply Forall_fmap. eapply Forall_impl; [exact Hok|].
      intros m Hm. by apply v3_line_no_line_break. }
  by rewrite (v3_read_rows mods Hok), (v3_parse_rows mods Hok).
Qed.

(** C7, as the code has it.  For a collection of records that each
    have a package id, a steam id that [str] prints (at most 4300
    digits) and a repo url, the triples come back exactly and in order
    - from [ModListV2Format.parse] given the lines that
      [ModListV2Format.serialize] yields, when no package id is empty
      and no package id or repo url holds a colon;
    - from [ModListV3Format.parse] given the text read from the file
      that [ModListStreamer.write] makes of the lines of
      [ModListV3Format.serialize], and so from [ModListStreamer.read],
      when no package id or repo url holds a comma, a carriage return
      or a line feed or is longer than the csv reader's field limit,
      and no row as written starts or ends with white space: the
      package id, unless the writer quotes it, does not start with
      white space and the repo url, unless quoted, does not end with
      it.  Reading that file costs one diagnostic, for the empty row
      after its last newline. *)
Theorem C7_round_trip_of_full_records (mods : list Mod.t) :
  (Forall v2_writable mods ->
   ModListV2Format.serialize mods = (v2_line <$> mods, None)
   /\ ModListV2Format.parse (Lines (v2_line <$> mods))
      = Run (triple <$> mods) [] None)
  /\ (Forall v3_writable mods ->
      ModListStreamer.write mods ModListV3Format.codec
      = (ModListStreamer.file_text (v3_line <$> mods), Ok true)
      /\ ModListV3Format.parse
           (Text (ModListStreamer.read_text
                    (ModListStreamer.file_text (v3_line <$> mods))))
         = Run (triple <$> mods) [DiagRow []] None
      /\ ModListStreamer.read
           (Some (ModListStreamer.file_text (v3_line <$> mods)))
           ModListV3Format.codec
         = Ok (Some (triple <$> mods))).
Proof.
  split; [apply v2_round_trip_lines|]. intros Hok.
  destruct (v3_round_trip_file mods Hok) as [Hw Hpar].
  split; [done|]. split; [done|].
  unfold ModListStreamer.read.
  change (parse ModListV3Format.codec) with ModListV3Format.parse.
  by rewrite Hpar.
Qed.

Lemma C7_round_trip_of_full_records_witness :
  let m := Mod.make "some.mod" (Some 123) (Some "https//example.org/r") in
  let q := Mod.make (String " " (String Csv.quotechar "p")) (Some (-7))
                    (Some (String Csv.quotechar " ")) in
  Forall v2_writable [m; m] /\ Forall v3_writable [m; q]
  /\ ModListV2Format.parse (Lines (ModListV2Format.serialize [m; m]).1)
     = Run [m; m] [] None
  /\ ModListStreamer.read
       (Some (ModListStreamer.write [m; q] ModListV3Format.codec).1)
       ModListV3Format.codec
     = Ok (Some [m; q]).
Proof.
  intros m q.
  assert (H2 : Forall v2_writable [m; m]).
  { assert (H : v2_writable m).
    { split; [discriminate|]. split; [reflexivity|].
      split; [exists 123; split; [reflexivity | vm_compute; discriminate]|].
      eexists. split; reflexivity. }
    repeat (apply Forall_cons; split; [exact H|]). apply Forall_nil_2. }
  assert (H3 : Forall v3_writable [m; q]).
  { apply Forall_cons. split; [|apply Forall_cons; split; [|apply Forall_nil_2]].
    - split; [split; [reflexivity | vm_compute; discriminate]|].
      split; [reflexivity|].
      split; [exists 123; split; [reflexivity | vm_compute; discriminate]|].
      eexists. split; [reflexivity|].
      split; [split; [reflexivity | vm_compute; discriminate] | reflexivity].
    - split; [split; [reflexivity | vm_compute; discriminate]|].
      split; [reflexivity|].
      split; [exists (-7); split; [reflexivity | vm_compute; discriminate]|].
      eexists. split; [reflexivity|].
      split; [split; [reflexivity | vm_compute; discriminate] | reflexivity]. }
  split; [exact H2|]. split; [exact H3|].
  destruct (C7_round_trip_of_full_records [m; m]) as [Hv2 _].
  destruct (C7_round_trip_of_full_records [m; q]) as [_ Hv3].
  destruct (Hv2 H2) as (Hser & Hpar).
  destruct (Hv3 H3) as (Hw & _ & Hread).
  split.
  - rewrite Hser. exact Hpar.
  - rewrite Hw. exact Hread.
Defined.

(** C7 as stated fails, for each of the two codecs.  The stub record
    with the empty package id, steam id 1 and repo url [u] holds no
    delimiter, is written by [ModListV2Format] as one line, and is not
    read back: [parse] skips every line whose first field is empty.
    The record with package id [ a] (a space, then the letter), steam
    id 1 and repo url [u] holds no delimiter either; [ModListV3Format]
    strips the row it writes, and the record read back from the file
    has the package id [a]. *)
Lemma C7_round_trip_changes_records :
  (let m := Mod.make EmptyString (Some 1) (Some "u") in
   ModListV2Format.serialize [m] = (["::1::u"], None)
   /\ ModListV2Format.parse (Lines ["::1::u"]) = Run [] [] None
   /\ triple <$> [m] <> [])
  /\ (let m := Mod.make " a" (Some 1) (Some "u") in
      ModListV3Format.serialize [m] = (["a,1,u"], None)
      /\ ModListStreamer.write [m] ModListV3Format.codec
         = ("a,1,u" +:+ Str.newline, Ok true)
      /\ ModListStreamer.read (Some ("a,1,u" +:+ Str.newline))
                              ModListV3Format.codec
         = Ok (Some [Mod.make "a" (Some 1) (Some "u")])
      /\ triple <$> [m] <> [Mod.make "a" (Some 1) (Some "u")]).
Proof. repeat split; by vm_compute. Qed.

(** The limit on the digits of a steam id: [str] prints the largest
    integer of 4300 digits and raises [ValueError] on the next one, and
    [int] refuses a numeral of 4301 digits. *)
Lemma of_int_at_the_limit :
  printable (10 ^ 4300 - 1)
  /\ Str.of_int (10 ^ 4300) = Raise ValueError
  /\ Str.to_int (Str.decimal (10 ^ 4300)) = None.
Proof.
  split; [vm_compute; discriminate|]. split; vm_compute; reflexivity.
Qed.

(** [ModListV3Format.serialize] ends normally, and then with one line
    for each record, exactly when no record has a steam id of more
    digits than [str] prints; otherwise it ends with [ValueError], and
    it raises nothing else. *)
Theorem v3_serialize_outcome (mods : list Mod.t) :
  ((ModListV3Format.serialize mods).2 = None
   <-> Forall steamid_printable mods)
  /\ (Forall steamid_printable mods ->
      length (ModListV3Format.serialize mods).1 = length mods)
  /\ (forall e, (ModListV3Format.serialize mods).2 = Some e -> e = ValueError).
Proof.
  unfold ModListV3Format.serialize, CsvStringBuilder.__init__.
  induction mods as [|m mods (IH1 & IH2 & IH3)].
  - split; [|done]. split; [intros _; apply Forall_nil_2 | done].
  - rewrite Forall_cons, <- IH1. cbn [ModListV3Format.serialize_from].
    destruct (v3_serialize_one_cases [] m) as [(Hp & line & ->)|(Hp & ->)].
    + destruct (ModListV3Format.serialize_from [] mods) as [ls e].
      simpl in *. split; [split; [by intros -> | by intros [_ ->]]|].
      split; [|done]. intros [_ He]. f_equal. apply IH2. by apply IH1.
    + simpl. split; [split; [done | by intros [? _]]|].
      split; [by intros [? _] | by intros e [= <-]].
Qed.

Lemma v3_serialize_outcome_witness :
  let mods := [Mod.make "a" None None; Mod.make "b" (Some 5) (Some "u")] in
  Forall steamid_printable mods
  /\ ModListV3Format.serialize mods = (["a,None,"; "b,5,u"], None)
  /\ length (ModListV3Format.serialize mods).1 = length mods
  /\ ModListV3Format.serialize [Mod.make "c" (Some (10 ^ 4300)) None]
     = ([], Some ValueError).
Proof.
  intros mods.
  assert (H : Forall steamid_printable mods).
  { apply Forall_cons. split; [intros z [=]|].
    apply Forall_cons. split; [|apply Forall_nil_2].
    intros z [= <-]. vm_compute. discriminate. }
  split; [exact H|]. split; [reflexivity|].
  split; [exact (proj1 (proj2 (v3_serialize_outcome mods)) H)|].
  vm_compute. reflexivity.
Defined.

(** A record that [ModListV3Format.parse] yields has a steam id and a
    repo url: an empty third column is read as the empty string, never
    as [None]. *)
Theorem v3_parsed_record_fields (text : pytext) (m : Mod.t) :
  m ∈ yielded (ModListV3Format.parse text) ->
  is_Some (Mod.steamid m) /\ is_Some (Mod.repo_url m).
Proof.
  intros Hm.
  assert (Hrow : exists row, ModListV3Format.parse_row row = Yield m).
  { destruct text as [s|l]; simpl in Hm; [|by apply elem_of_nil in Hm].
    destruct (Csv.reader_rows _) as [rows e].
    apply for_yield_yielded in Hm as (row & _ & Hb). by exists row. }
  destruct Hrow as (row & Hb). unfold ModListV3Format.parse_row in Hb.
  destruct (_ !! ModListV3Format.PACKAGE_ID) as [pid|]; [|done].
  destruct (_ !! ModListV3Format.STEAM_ID) as [sid|]; [|done].
  destruct (Str.to_int sid) as [z|]; [|done].
  destruct (_ !! ModListV3Format.REPO_URL) as [url|]; [|done].
  injection Hb as <-. simpl. split; by eexists.
Qed.

Lemma v3_parsed_record_fields_witness :
  let m := Mod.make "a" (Some 1) (Some EmptyString) in
  is_Some (Mod.steamid m) /\ is_Some (Mod.repo_url m).
Proof.
  intros m. apply (v3_parsed_record_fields (Text "a,1,") m).
  vm_compute. left.
Defined.

(** ** More on the mod list *)

(** A negative index counts from the end: for [-len(xs) <= i < 0],
    [insert(i, x)] replaces the element at position [len(xs) + i]. *)
Theorem insert_negative_index (xs : ModList.t) (x : Mod.t) (i : Z) :
  - ModList.__len__ xs <= i < 0 ->
  ModList.insert xs i x
  = Ok (ModList.ModList
          (<[Z.to_nat (ModList.__len__ xs + i) := x]> (ModList.data xs))
          (ModList.name xs)).
Proof.
  intros Hi. unfold ModList.insert, ModList.__len__ in *.
  rewrite norm_index_negative by done.
  by rewrite (Z.add_comm i).
Qed.

Lemma insert_negative_index_witness :
  ModList.insert (ModList.ModList [Mod.ModStub 1; Mod.ModStub 2] None) (-1)
                 (Mod.ModStub 3)
  = Ok (ModList.ModList [Mod.ModStub 1; Mod.ModStub 3] None).
Proof.
  apply (insert_negative_index
           (ModList.ModList [Mod.ModStub 1; Mod.ModStub 2] None)).
  unfold ModList.__len__; simpl; lia.
Defined.

(** [insert] raises [IndexError] exactly for the indices outside
    [-len(xs), len(xs)); on success the length is unchanged: a mod list
    never grows through [insert]. *)
Theorem insert_raises_iff (xs : ModList.t) (x : Mod.t) (i : Z) :
  (ModList.insert xs i x = Raise IndexError
   <-> i < - ModList.__len__ xs \/ ModList.__len__ xs <= i)
  /\ forall xs', ModList.insert xs i x = Ok xs' ->
                 ModList.__len__ xs' = ModList.__len__ xs.
Proof.
  unfold ModList.insert, ModList.__len__. split.
  - split.
    + destruct (norm_index _ i) as [j|] eqn:E; [done|]. intros _.
      destruct (decide (0 <= i)) as [H0|H0].
      * destruct (decide (i < Z.of_nat (length (ModList.data xs)))); [|lia].
        rewrite norm_index_in_range in E by lia. done.
      * destruct (decide (- Z.of_nat (length (ModList.data xs)) <= i)); [|lia].
        rewrite norm_index_negative in E by lia. done.
    + intros H. by rewrite norm_index_out_of_range.
  - intros xs'. destruct (norm_index _ i) as [j|]; [|done].
    intros [= <-]. simpl. by rewrite length_insert.
Qed.

(** [extend] with at least one value raises [IndexError]: its first
    [append] does. *)
Theorem extend_nonempty_raises (xs : ModList.t) (v : Mod.t) (vs : list Mod.t) :
  ModList.extend xs (v :: vs) = Raise IndexError.
Proof. simpl. by rewrite append_raises. Qed.

(** [pop()] with its default index [-1] returns the last record and
    leaves the records before it. *)
Theorem pop_last (l : list Mod.t) (x : Mod.t) (name : option string) :
  ModList.pop (ModList.ModList (l ++ [x]) name) (-1)
  = Ok (x, ModList.ModList l name).
Proof.
  unfold ModList.pop, ModList.__getitem__, ModList.__delitem__. simpl.
  rewrite norm_index_negative by (rewrite length_app; simpl; lia).
  replace (Z.to_nat (-1 + Z.of_nat (length (l ++ [x])))) with (length l)
    by (rewrite length_app; simpl; lia).
  rewrite list_lookup_middle by done.
  do 3 f_equal. induction l as [|y l IH]; [done|]. simpl. by rewrite IH.
Qed.

(** ** The workshop helpers *)

(** [workshop_format] raises [TypeError] for every non-empty list of
    mods: a steam id is an integer or [None], and [join] takes strings
    only.  For the empty list it returns the bare prefix. *)
Theorem workshop_format_raises (m : Mod.t) (mods : list Mod.t) :
  SteamDownloader.workshop_format (m :: mods) = Raise TypeError
  /\ SteamDownloader.workshop_format []
     = Ok " +workshop_download_item 294100 ".
Proof.
  split; [|done]. unfold SteamDownloader.workshop_format.
  rewrite filter_cons_True by done. rewrite fmap_cons.
  unfold SteamDownloader.join_objects, SteamDownloader.steamid_object at 1.
  by destruct (Mod.steamid m).
Qed.

(** [get_details] leaves the name, the author and the number of ratings
    of a result as they are, whatever the page holds: [detail] hands
    the page's number of ratings to a keyword that [__init__] drops. *)
Theorem get_details_keeps_num_ratings (self : WorkshopResult.t)
  (p : WorkshopWebScraper.page) :
  let r := WorkshopWebScraper.get_details self p in
  WorkshopResult.num_ratings r = WorkshopResult.num_ratings self
  /\ WorkshopResult.name r = WorkshopResult.name self
  /\ WorkshopResult.author r = WorkshopResult.author self
  /\ WorkshopResult.steamid r = WorkshopResult.steamid self.
Proof.
  simpl. repeat split. by case_bool_decide.
Qed.

(** [_merge] never empties an attribute, and merging the same result a
    second time changes nothing. *)
Theorem merge_keeps_and_is_idempotent (a b : WorkshopResult.t) :
  WorkshopResult._merge (WorkshopResult._merge a b) b = WorkshopResult._merge a b
  /\ Forall (fun attribute =>
               WorkshopResult.truthy_str (attribute a) = true ->
               WorkshopResult.truthy_str
                 (attribute (WorkshopResult._merge a b)) = true)
            string_attributes.
Proof.
  split.
  - unfold WorkshopResult._merge. simpl.
    f_equal; repeat case_match; done.
  - unfold string_attributes. repeat apply Forall_cons_2;
      [..|apply Forall_nil_2]; simpl; intros Ha;
      match goal with
      | |- context [if ?b then _ else _] => by destruct b eqn:E
      end.
Qed.

(** ** [ModListV3Format.parse] on a text without carriage returns *)

Section ReaderNeverRaises.

Import Csv.

Lemma split_from_pieces bad sep s :
  forall ms skip cur,
    free_of bad cur -> free_of bad s ->
    Forall (free_of bad) (Str.split_from sep ms skip cur s).
Proof.
  induction s as [|c s IH]; intros ms skip cur Hcur Hs.
  - by apply Forall_singleton.
  - apply free_of_cons in Hs as [Hc Hs]. cbn [Str.split_from].
    destruct skip as [|k]; [|by apply IH].
    destruct (_ && _).
    + apply Forall_cons. split; [done|]. by apply IH.
    + apply IH; [|done]. apply free_of_app. split; [done|].
      apply free_of_cons. by split.
Qed.

Lemma split_newline_pieces s :
  forall cur,
    free_of (is_char "010") cur ->
    Forall (free_of (is_char "010"))
           (Str.split_from Str.newline None O cur s).
Proof.
  unfold Str.newline. induction s as [|c s IH]; intros cur Hcur.
  - by apply Forall_singleton.
  - cbn [Str.split_from String.prefix]. rewrite bool_decide_eq_true_2 by done.
    destruct (ascii_dec "010" c) as [<-|Hne]; simpl.
    + replace (String.prefix EmptyString s) with true by (by destruct s).
      apply Forall_cons. split; [done|]. by apply IH.
    + apply IH. apply free_of_app. split; [done|].
      apply free_of_cons. split; [|done].
      apply bool_decide_eq_false. congruence.
Qed.

Lemma split_from_budget sep s :
  forall ms skip cur,
    (budget (Str.split_from sep ms skip cur s)
     <= String.length cur + String.length s)%nat.
Proof.
  induction s as [|c s IH]; intros ms skip cur.
  - simpl. lia.
  - cbn [Str.split_from]. destruct skip as [|k].
    + destruct (_ && _).
      * specialize (IH (pred <$> ms) (String.length sep - 1)%nat EmptyString).
        simpl in *. lia.
      * specialize (IH ms O (cur +:+ String c EmptyString)).
        rewrite str_length_app in IH. simpl in *. lia.
    + specialize (IH ms k cur). simpl. lia.
Qed.

Lemma process_char_ok r c :
  state r <> EAT_CRNL -> is_newline c = false ->
  Z.of_nat (String.length (field r)) < field_limit ->
  exists r', parse_process_char r (Some c) = Ok r'
             /\ state r' <> EAT_CRNL
             /\ (String.length (field r') <= String.length (field r) + 1)%nat.
Proof.
  intros Hst Hnl Hlen. destruct r as [st fs cur]. simpl in *.
  unfold parse_process_char, parse_add_char, parse_save_field. simpl.
  rewrite Hnl.
  destruct (Z.leb_spec field_limit (Z.of_nat (String.length cur))); [lia|].
  destruct st; try done;
    repeat case_bool_decide; eexists; (split; [reflexivity|]); simpl;
    rewrite ?str_length_app; simpl; (split; [done | lia]).
Qed.

Lemma process_eol_ok r :
  state r <> EAT_CRNL ->
  exists r', parse_process_char r None = Ok r'
             /\ state r' <> EAT_CRNL
             /\ (String.length (field r') <= String.length (field r))%nat.
Proof.
  intros Hst. destruct r as [st fs cur]. simpl in *.
  destruct st; try done; eexists; (split; [reflexivity|]); simpl;
    (split; [done | lia]).
Qed.

Lemma feed_chars_ok s :
  forall r,
    state r <> EAT_CRNL -> free_of is_newline s ->
    Z.of_nat (String.length (field r) + String.length s) <= field_limit ->
    exists r', feed_chars r s = Ok r'
               /\ state r' <> EAT_CRNL
               /\ (String.length (field r')
                   <= String.length (field r) + String.length s)%nat.
Proof.
  induction s as [|c s IH]; intros r Hst Hs Hlen.
  - exists r. simpl. split; [done|]. split; [done | lia].
  - apply free_of_cons in Hs as [Hc Hs]. simpl in Hlen.
    destruct (process_char_ok r c Hst Hc) as (r1 & H1 & Hst1 & Hl1); [lia|].
    destruct (IH r1 Hst1 Hs) as (r2 & H2 & Hst2 & Hl2); [lia|].
    exists r2. simpl. rewrite H1. split; [done|]. split; [done | lia].
Qed.

Lemma read_rows_ok lines :
  forall r,
    state r <> EAT_CRNL -> Forall (free_of is_newline) lines ->
    Z.of_nat (String.length (field r) + budget lines) <= field_limit ->
    (read_rows r lines).2 = None.
Proof.
  induction lines as [|line lines IH]; intros r Hst Hlines Hlen.
  - simpl. by destruct (_ || _).
  - apply Forall_cons in Hlines as [Hline Hlines]. simpl in Hlen.
    destruct (feed_chars_ok line r Hst Hline) as (r1 & H1 & Hst1 & Hl1); [lia|].
    destruct (process_eol_ok r1 Hst1) as (r2 & H2 & Hst2 & Hl2).
    cbn [read_rows]. unfold feed_line. rewrite H1, H2.
    assert (Hrec : (read_rows r2 lines).2 = None) by (apply IH; [done..|lia]).
    assert (Hfresh : (read_rows (Reader START_RECORD [] EmptyString) lines).2 = None)
      by (apply IH; [done..|simpl; lia]).
    destruct (state r2); try done.
    by destruct (read_rows (Reader START_RECORD [] EmptyString) lines).
Qed.

End ReaderNeverRaises.

Lemma v3_parse_row_no_abort row e : ModListV3Format.parse_row row <> Abort e.
Proof.
  unfold ModListV3Format.parse_row. by repeat case_match.
Qed.

(** On a text that holds no carriage return and is not longer than the
    reader's field limit, [ModListV3Format.parse] never raises: a row
    it cannot use is skipped, and the diagnostic printed for it shows
    the row as split into fields. *)
Theorem v3_parse_never_raises (text : string) :
  free_of (is_char "013") text ->
  Z.of_nat (String.length text) <= Csv.field_limit ->
  raised (ModListV3Format.parse (Text text)) = None
  /\ forall d, d ∈ printed (ModListV3Format.parse (Text text)) ->
               exists row, d = DiagRow row.
Proof.
  intros Hcr Hlen. simpl.
  destruct (Csv.reader_rows (Str.split Str.newline text)) as [rows e] eqn:E.
  assert (He : e = None).
  { change e with (rows, e).2. rewrite <- E. unfold Csv.reader_rows.
    apply read_rows_ok; [done| |].
    - unfold Str.split.
      pose proof (split_from_pieces (is_char "013") Str.newline text None O
                    EmptyString eq_refl Hcr) as H1.
      pose proof (split_newline_pieces text EmptyString eq_refl) as H2.
      rewrite Forall_forall in H1, H2. apply Forall_forall. intros l Hl.
      specialize (H1 l Hl). specialize (H2 l Hl). clear -H1 H2.
      induction l as [|c l IH]; [done|].
      apply free_of_cons in H1 as [Hc1 H1]. apply free_of_cons in H2 as [Hc2 H2].
      apply free_of_cons. split; [|by apply IH].
      unfold Csv.is_newline. unfold is_char in *. by rewrite Hc1, Hc2.
    - pose proof (split_from_budget Str.newline text None O EmptyString).
      unfold Str.split. simpl in *. lia. }
  subst e. split.
  - apply for_yield_raised. intros row e _. apply v3_parse_row_no_abort.
  - intros d (row & _ & Hb)%for_yield_printed. exists row.
    unfold ModListV3Format.parse_row in Hb.
    repeat case_match; by simplify_eq.
Qed.

Lemma v3_parse_never_raises_witness :
  raised (ModListV3Format.parse (Text "a,1,u")) = None.
Proof.
  refine (proj1 (v3_parse_never_raises "a,1,u" _ _));
    [reflexivity | vm_compute; discriminate].
Defined.
